(** * TrendRadar-visual: configuration store, report classifier and
      export segmenter

    A shallow embedding of three pieces of the repository:

    - [trendradar/web/config_store.py]: [deep_merge_inplace] and the
      [ConfigStore] operations that patch or reset the managed files,
      always through [write_with_backup];
    - [trendradar/report/html.py], Python part: the heat and rank classes
      and the title link computed inside [render_html_content];
    - [trendradar/report/html.py], browser part: the element collection
      and the greedy walk of [saveAsMultipleImages].

    Conventions.  Python [int] is [Z].  Python [str] is [string].  A
    Python [dict] is an association list in insertion order with the
    update discipline of [dict.__setitem__].  The file system is a finite
    map from path strings to file contents, threaded through a small
    state-and-exception monad together with a log of the writes.  The
    numbers of the browser script (IEEE doubles in the source) are exact
    rationals [Q]: the walk only subtracts and compares them. *)

From Stdlib Require Import ZArith QArith Qminmax Lqa Lia List Sorted.
From Stdlib Require Import Ascii String DecimalString.
From stdpp Require Import gmap strings list fin_maps.

Import ListNotations.
Set Warnings "-register-all".
Local Open Scope string_scope.
Local Open Scope list_scope.

(** ** Part I: configuration documents ([config_store.py]) *)

(** What ruamel's loader hands back: [None], a scalar, a list or a dict.
    Scalars keep their Python type.  Documents are trees: no node is
    shared between two places (no YAML alias is expanded into a shared
    object). *)
Inductive YamlData : Type :=
  | YNone : YamlData
  | YBool (b : bool) : YamlData
  | YInt (n : Z) : YamlData
  | YStr (s : string) : YamlData
  | YList (items : list YamlData) : YamlData
  | YDict (entries : list (string * YamlData)) : YamlData.

(** [isinstance(x, dict)]. *)
Definition is_dict (x : YamlData) : bool :=
  match x with YDict _ => true | _ => false end.

(** [d.get(k)] on the entries of a dict. *)
Fixpoint dict_get (k : string) (d : list (string * YamlData)) : option YamlData :=
  match d with
  | [] => None
  | (k', v) :: rest => if String.eqb k k' then Some v else dict_get k rest
  end.

(** [d[k] = v]: an existing key keeps its position, a new key goes last. *)
Fixpoint dict_set (k : string) (v : YamlData) (d : list (string * YamlData))
  : list (string * YamlData) :=
  match d with
  | [] => [(k, v)]
  | (k', v') :: rest =>
      if String.eqb k k' then (k', v) :: rest else (k', v') :: dict_set k v rest
  end.

(** [d.keys()].  In a Python dict they are pairwise different. *)
Definition dict_keys (d : list (string * YamlData)) : list string := map fst d.

(** [deep_merge_inplace(target, patch)].  The source mutates [target]
    and returns it; the embedding returns the value [target] holds after
    the call.  The inner [merge_items] is the [for k, v in patch.items()]
    loop, run on the current entries of [target]. *)
Fixpoint deep_merge_inplace (target patch : YamlData) {struct patch} : YamlData :=
  match patch with
  | YNone => target
  | YDict pitems =>
      match target with
      | YDict titems =>
          YDict
            ((fix merge_items (ps : list (string * YamlData))
                  (ts : list (string * YamlData)) {struct ps}
                : list (string * YamlData) :=
                match ps with
                | [] => ts
                | (k, v) :: ps' =>
                    merge_items ps'
                      (match dict_get k ts, v with
                       | Some (YDict sub), YDict _ =>
                           dict_set k (deep_merge_inplace (YDict sub) v) ts
                       | _, _ => dict_set k v ts
                       end)
                end) pitems titems)
      | _ => patch
      end
  | _ => patch
  end.

(** The loop of [deep_merge_inplace] as a function of its own; the two
    agree by [merge_loop_eq]. *)
Fixpoint merge_items (ps ts : list (string * YamlData)) {struct ps}
  : list (string * YamlData) :=
  match ps with
  | [] => ts
  | (k, v) :: ps' =>
      merge_items ps'
        (match dict_get k ts, v with
         | Some (YDict sub), YDict _ =>
             dict_set k (deep_merge_inplace (YDict sub) v) ts
         | _, _ => dict_set k v ts
         end)
  end.

(** ** Part II: the file system and the store ([config_store.py]) *)

(** What an operation of the store can raise. *)
Inductive Exn : Type :=
  | ValueError (msg : string) : Exn
  | FileNotFoundError (msg : string) : Exn
  | YamlParseError : Exn.

Inductive Result (A : Type) : Type :=
  | Ok (a : A) : Result A
  | Raise (e : Exn) : Result A.
Arguments Ok {A} a.
Arguments Raise {A} e.

(** The writes an operation performs, in program order. *)
Inductive Event : Type :=
  | MkdirParents (path : string) : Event
  | WriteText (path content : string) : Event.

(** The world an operation runs in: the files on disk (path to content),
    the value [datetime.now().strftime("%Y%m%d-%H%M%S")] has during the
    call, and the log of the effects performed so far. *)
Record World : Type := mkWorld {
  files : gmap string string;
  clock : string;
  log : list Event
}.

(** Computations that read and write the world and may raise. *)
Definition M (A : Type) : Type := World -> Result A * World.

#[export] Instance M_ret : MRet M := fun A a w => (Ok a, w).
#[export] Instance M_bind : MBind M := fun A B k m w =>
  match m w with
  | (Ok a, w') => k a w'
  | (Raise e, w') => (Raise e, w')
  end.

Definition raise {A : Type} (e : Exn) : M A := fun w => (Raise e, w).

(** [path.exists()]. *)
Definition path_exists (path : string) : M bool :=
  fun w => (Ok (bool_decide (is_Some (files w !! path))), w).

(** [path.read_text(encoding="utf-8")]. *)
Definition read_text (path : string) : M string :=
  fun w =>
    match files w !! path with
    | Some text => (Ok text, w)
    | None => (Raise (FileNotFoundError path), w)
    end.

(** [path.write_text(content, encoding="utf-8")]: creates or overwrites. *)
Definition write_text (path content : string) : M unit :=
  fun w =>
    (Ok tt, mkWorld (<[path := content]> (files w)) (clock w)
                    (log w ++ [WriteText path content])).

(** [path.parent.mkdir(parents=True, exist_ok=True)]: directories are not
    part of [files]; the call is recorded only. *)
Definition mkdir_parents (path : string) : M unit :=
  fun w => (Ok tt, mkWorld (files w) (clock w) (log w ++ [MkdirParents path])).

(** [datetime.now().strftime("%Y%m%d-%H%M%S")]. *)
Definition now_stamp : M string := fun w => (Ok (clock w), w).

(** [path.with_suffix(path.suffix + f".bak.{ts}")]: the old suffix is
    replaced by itself followed by the backup suffix, so the name grows
    at its end. *)
Definition backup_path (path ts : string) : string := path +:+ ".bak." +:+ ts.

(** [ConfigStore.write_with_backup]. *)
Definition write_with_backup (path content : string) : M unit :=
  mkdir_parents path;;
  e ← path_exists path;
  (if e : bool then
     ts ← now_stamp;
     old ← read_text path;
     write_text (backup_path path ts) old
   else mret tt);;
  write_text path content.


Record ConfigStore : Type := mkConfigStore {
  config_path : string;
  frequency_words_path : string;
  default_config_candidates : list string;
  default_words_candidates : list string
}.

(** Python truth of a string: [not text] holds for the empty string. *)
Definition str_truthy (s : string) : bool :=
  match s with EmptyString => false | _ => true end.

(** [ConfigStore._read_default_text]. *)
Fixpoint _read_default_text (candidates : list string) : M (option string) :=
  match candidates with
  | [] => mret None
  | p :: rest =>
      e ← path_exists p;
      if e : bool then text ← read_text p; mret (Some text)
      else _read_default_text rest
  end.

(** The operations that go through ruamel.  The library is not part of
    the repository: its loader and dumper are parameters.  [yaml_load]
    answers [None] where [YAML.load] raises. *)
Section Store.

Variable yaml_load : string -> option YamlData.
Variable yaml_dump : YamlData -> string.

Variable store : ConfigStore.

(** [ConfigStore.read_config_text]. *)
Definition read_config_text : M string :=
  e ← path_exists (config_path store);
  if e : bool then read_text (config_path store) else mret EmptyString.

(** [ConfigStore.read_default_config_text] and
    [ConfigStore.read_default_words_text]. *)
Definition read_default_config_text : M (option string) :=
  _read_default_text (default_config_candidates store).

Definition read_default_words_text : M (option string) :=
  _read_default_text (default_words_candidates store).

(** [y.load(text)]. *)
Definition load_text (text : string) : M YamlData :=
  match yaml_load text with
  | Some data => mret data
  | None => raise YamlParseError
  end.

(** [ConfigStore.load_config_yaml]. *)
Definition load_config_yaml : M YamlData :=
  text ← read_config_text;
  text ← (if str_truthy text then mret text
          else d ← read_default_config_text;
               mret (match d with
                     | Some t => if str_truthy t then t else EmptyString
                     | None => EmptyString
                     end));
  if str_truthy text then load_text text else mret (YDict []).

(** [ConfigStore.patch_config].  The value returned by
    [deep_merge_inplace] is dropped by the source: [data] changes only
    when the merge works in place, that is when [patch] is a dict too.
    The dict the source returns holds the path only. *)
Definition patch_config (patch : YamlData) : M string :=
  data ← load_config_yaml;
  let data := match data with YNone => YDict [] | _ => data end in
  if is_dict data then
    let data :=
      match patch with
      | YDict _ => deep_merge_inplace data patch
      | _ => data
      end in
    let content := yaml_dump data in
    write_with_backup (config_path store) content;;
    mret (config_path store)
  else raise (ValueError "Config YAML root must be a mapping").

(** [ConfigStore.reset_config_to_default]. *)
Definition reset_config_to_default : M string :=
  default_text ← read_default_config_text;
  match default_text with
  | Some text =>
      if str_truthy text then
        parsed ← load_text text;
        if is_dict parsed then
          write_with_backup (config_path store) text;;
          mret (config_path store)
        else raise (ValueError "Default config is invalid")
      else raise (FileNotFoundError "Default config template not found")
  | None => raise (FileNotFoundError "Default config template not found")
  end.

(** [ConfigStore.reset_words_to_default]. *)
Definition reset_words_to_default : M string :=
  default_text ← read_default_words_text;
  match default_text with
  | Some text =>
      write_with_backup (frequency_words_path store) text;;
      mret (frequency_words_path store)
  | None => raise (FileNotFoundError "Default frequency_words template not found")
  end.

(** The three mutating operations of the store and the file each one
    writes. *)
Inductive Operation : Type :=
  | Patch (patch : YamlData) : Operation
  | ResetConfig : Operation
  | ResetWords : Operation.

Definition run (op : Operation) : M string :=
  match op with
  | Patch patch => patch_config patch
  | ResetConfig => reset_config_to_default
  | ResetWords => reset_words_to_default
  end.

Definition destination (op : Operation) : string :=
  match op with
  | Patch _ | ResetConfig => config_path store
  | ResetWords => frequency_words_path store
  end.

End Store.

(** The first candidate that exists on disk, if any. *)
Fixpoint first_existing (fs : gmap string string) (candidates : list string)
  : option string :=
  match candidates with
  | [] => None
  | p :: rest => if bool_decide (is_Some (fs !! p)) then Some p
                 else first_existing fs rest
  end.

(** ** Part III: classes and links of the report ([render_html_content]) *)

(** Pure Python computations that may raise. *)
#[export] Instance Result_ret : MRet Result := fun A a => Ok a.
#[export] Instance Result_bind : MBind Result := fun A B k r =>
  match r with
  | Ok a => k a
  | Raise e => Raise e
  end.


(** [str(n)] for an [int]. *)
Definition py_str (n : Z) : string := NilZero.string_of_int (Z.to_int n).

(** [min(xs)] and [max(xs)]: both raise on an empty sequence. *)
Definition py_min (xs : list Z) : Result Z :=
  match xs with
  | [] => Raise (ValueError "min() arg is an empty sequence")
  | x :: rest => Ok (fold_left Z.min rest x)
  end.

Definition py_max (xs : list Z) : Result Z :=
  match xs with
  | [] => Raise (ValueError "max() arg is an empty sequence")
  | x :: rest => Ok (fold_left Z.max rest x)
  end.

(** Python truth of a list. *)
Definition list_truthy {A : Type} (xs : list A) : bool :=
  match xs with [] => false | _ => true end.

(** One entry of [stat["titles"]] or of [source_data["titles"]].  An
    optional field is [None] when the key is absent (or holds [None]);
    [ranks] absent reads as the empty list. *)
Record TitleData : Type := mkTitleData {
  title : string;
  url : option string;
  mobile_url : option string;
  ranks : list Z;
  rank_threshold : option Z
}.


(** [title_data.get("rank_threshold", 10)]. *)
Definition get_rank_threshold (title_data : TitleData) : Z :=
  match rank_threshold title_data with Some t => t | None => 10%Z end.

(** The rank class chosen from the best rank. *)
Definition rank_class (min_rank threshold : Z) : string :=
  if (min_rank <=? 3)%Z then "top"
  else if (min_rank <=? threshold)%Z then "high"
  else EmptyString.

(** The rank badge of an item of the statistics section: class and text,
    or no badge at all when [ranks] is empty. *)
Definition stats_rank_badge (title_data : TitleData) : Result (option (string * string)) :=
  let ranks := ranks title_data in
  if list_truthy ranks then
    min_rank ← py_min ranks;
    max_rank ← py_max ranks;
    let rank_threshold := get_rank_threshold title_data in
    let rank_class := rank_class min_rank rank_threshold in
    let rank_text :=
      if (min_rank =? max_rank)%Z then py_str min_rank
      else py_str min_rank +:+ "-" +:+ py_str max_rank in
    mret (Some (rank_class, rank_text))
  else mret None.

(** The rank badge of an item of the section of new titles: class and
    text, always present. *)
Definition new_rank_badge (title_data : TitleData) : Result (string * string) :=
  let ranks := ranks title_data in
  if list_truthy ranks then
    min_rank ← py_min ranks;
    let rank_class := rank_class min_rank (get_rank_threshold title_data) in
    if (length ranks =? 1)%nat then
      mret (rank_class, py_str (nth 0 ranks 0%Z))
    else
      max_rank ← py_max ranks;
      mret (rank_class, py_str min_rank +:+ "-" +:+ py_str max_rank)
  else mret (EmptyString, "?").


Section Markup.

(** [html_escape] lives in [trendradar.report.helpers], outside the
    files at hand: it is a parameter. *)
Variable html_escape : string -> string.




End Markup.

(** ** Part IV: the segments of [saveAsMultipleImages] *)

(** What [getBoundingClientRect] gives for a node. *)
Record Rect : Type := mkRect {
  rect_top : Q;
  rect_bottom : Q;
  rect_height : Q
}.

(** One [.word-group] node: its rectangle, its first [.word-header] if it
    has one, and its [.news-item] nodes in document order. *)
Record WordGroup : Type := mkWordGroup {
  groupRect : Rect;
  wordHeader : option Rect;
  groupNewsItems : list Rect
}.

(** The measured page, as the script reads it from the DOM. *)
Record Page : Type := mkPage {
  containerRect : Rect;
  container_offsetHeight : Q;
  header_offsetHeight : Q;
  errorSection : option Rect;
  wordGroups : list WordGroup;
  newSection : option Rect;
  footerRect : Rect;
  footer_offsetHeight : Q
}.

Inductive ElementType : Type :=
  | header | error | word_header | news_item | new_section | footer.

(** An entry of the [elements] array.  [parent] is the word group the
    entry was taken from, given by its position in [wordGroups]. *)
Module Element.
Record t : Type := mk {
  type : ElementType;
  parent : option nat;
  top : Q;
  bottom : Q;
  height : Q
}.
End Element.

(** An entry of the [segments] array; [end_] is the field [end]. *)
Module Segment.
Record t : Type := mk {
  start : Q;
  end_ : Q;
  height : Q;
  includeHeader : bool
}.
End Segment.

(** [a > b] on numbers. *)
Definition Qgtb (a b : Q) : bool :=
  match (a ?= b)%Q with Gt => true | _ => false end.

(** [const scale = 1.5; const maxHeight = 5000 / scale;] *)
Definition scale : Q := 3 # 2.
Definition maxHeight : Q := (5000 / scale)%Q.

(** The entries pushed for one word group: its header, then each of its
    news items. *)
Definition group_elements (containerTop : Q) (index : nat) (group : WordGroup)
  : list Element.t :=
  match wordHeader group with
  | Some headerRect =>
      [Element.mk word_header (Some index)
         (rect_top (groupRect group) - containerTop)%Q
         (rect_bottom headerRect - containerTop)%Q
         (rect_height headerRect)]
  | None => []
  end
  ++ map (fun rect =>
            Element.mk news_item (Some index)
              (rect_top rect - containerTop)%Q
              (rect_bottom rect - containerTop)%Q
              (rect_height rect))
         (groupNewsItems group).

(** [wordGroups.forEach(group => ...)], with the position of each group. *)
Fixpoint groups_elements (containerTop : Q) (index : nat) (groups : list WordGroup)
  : list Element.t :=
  match groups with
  | [] => []
  | group :: rest =>
      group_elements containerTop index group
      ++ groups_elements containerTop (S index) rest
  end.

Definition section_element (containerTop : Q) (ty : ElementType) (r : option Rect)
  : list Element.t :=
  match r with
  | Some rect =>
      [Element.mk ty None (rect_top rect - containerTop)%Q
         (rect_bottom rect - containerTop)%Q (rect_height rect)]
  | None => []
  end.

(** The [elements] array, in the order the script pushes its entries. *)
Definition collect_elements (page : Page) : list Element.t :=
  let containerTop := rect_top (containerRect page) in
  [Element.mk header None 0 (header_offsetHeight page) (header_offsetHeight page)]
  ++ section_element containerTop error (errorSection page)
  ++ groups_elements containerTop 0 (wordGroups page)
  ++ section_element containerTop new_section (newSection page)
  ++ [Element.mk footer None
        (rect_top (footerRect page) - containerTop)%Q
        (rect_bottom (footerRect page) - containerTop)%Q
        (footer_offsetHeight page)].

(** The state of the loop: the segments pushed so far and
    [currentSegment]. *)
Definition WalkState : Type := (list Segment.t * Segment.t)%type.

(** One turn of the [for] loop, at [element = elements[i]] with
    [previous = elements[i - 1]]. *)
Definition walk_step (maxHeight headerHeight : Q) (previous element : Element.t)
    (st : WalkState) : WalkState :=
  let '(segments, currentSegment) := st in
  let potentialHeight := (Element.bottom element - Segment.start currentSegment)%Q in
  if Qgtb potentialHeight maxHeight
     && Qgtb (Segment.height currentSegment) headerHeight
  then
    let closed :=
      Segment.mk (Segment.start currentSegment) (Element.bottom previous)
        (Segment.height currentSegment) (Segment.includeHeader currentSegment) in
    (segments ++ [closed],
     Segment.mk (Segment.end_ closed) 0
       (Element.bottom element - Segment.end_ closed)%Q false)
  else
    (segments,
     Segment.mk (Segment.start currentSegment) (Element.bottom element)
       potentialHeight (Segment.includeHeader currentSegment)).

(** The [for] loop from [i = 1] on. *)
Fixpoint walk (maxHeight headerHeight : Q) (previous : Element.t)
    (rest : list Element.t) (st : WalkState) : WalkState :=
  match rest with
  | [] => st
  | element :: rest' =>
      walk maxHeight headerHeight element rest'
        (walk_step maxHeight headerHeight previous element st)
  end.

(** The last [if]: the current segment is pushed, stretched to the
    height of the container, when its height is positive. *)
Definition finish (totalHeight : Q) (st : WalkState) : list Segment.t :=
  let '(segments, currentSegment) := st in
  if Qgtb (Segment.height currentSegment) 0 then
    segments ++ [Segment.mk (Segment.start currentSegment) totalHeight
                   (Segment.height currentSegment)
                   (Segment.includeHeader currentSegment)]
  else segments.

(** The state after the loop: [segments] and [currentSegment] start as
    the script sets them, then the loop runs on [elements[1..]]. *)
Definition run_walk (maxHeight headerHeight : Q) (elements : list Element.t)
  : WalkState :=
  let initial := Segment.mk 0 0 headerHeight true in
  match elements with
  | [] => ([], initial)
  | first :: rest => walk maxHeight headerHeight first rest ([], initial)
  end.

(** The computation of [segments] for a given budget. *)
Definition compute_segments (maxHeight headerHeight totalHeight : Q)
    (elements : list Element.t) : list Segment.t :=
  finish totalHeight (run_walk maxHeight headerHeight elements).

(** The segments the script computes for a page. *)
Definition saveAsMultipleImages (page : Page) : list Segment.t :=
  compute_segments maxHeight (header_offsetHeight page)
    (container_offsetHeight page) (collect_elements page).

(** *** Notions the statements about segments use *)

(** [segments] tile the range from [a] to [b]: the first starts at [a],
    each one is non-empty and starts where the one before ends, and the
    last ends at [b]. *)
Fixpoint tiles (a : Q) (segments : list Segment.t) (b : Q) : Prop :=
  match segments with
  | [] => a = b
  | s :: rest =>
      Segment.start s = a
      /\ (Segment.start s < Segment.end_ s)%Q
      /\ tiles (Segment.end_ s) rest b
  end.

(** The element lies within the range of the segment. *)
Definition within (e : Element.t) (s : Segment.t) : bool :=
  Qle_bool (Segment.start s) (Element.top e)
  && Qle_bool (Element.bottom e) (Segment.end_ s).

(** The elements are laid out in document order: none has a negative
    extent and each one ends before any later one starts. *)
Definition layout_ordered (elements : list Element.t) : Prop :=
  Forall (fun e => (Element.top e <= Element.bottom e)%Q) elements
  /\ StronglySorted (fun a b => (Element.bottom a <= Element.top b)%Q) elements.

(** [e] is followed at once by [next] in [elements]. *)
Definition consecutive (elements : list Element.t) (e next : Element.t) : Prop :=
  exists before after, elements = before ++ e :: next :: after.

(** *** Invariants of the loops *)

(** What one turn of the loop stores at the key it visits. *)
Definition merged_value (old : option YamlData) (v : YamlData) : YamlData :=
  match old, v with
  | Some (YDict sub), YDict _ => deep_merge_inplace (YDict sub) v
  | _, _ => v
  end.


(** The tracked height is the distance from the start of the current
    segment to the bottom of the last element visited, and the segments
    pushed so far tile the range up to that start. *)
Definition tiling_invariant (previous : Element.t) (st : WalkState) : Prop :=
  (Segment.height (snd st) == Element.bottom previous - Segment.start (snd st))%Q
  /\ tiles 0 (fst st) (Segment.start (snd st)).


(** Every segment pushed by the loop ends at the bottom of an element
    that has a successor. *)
Definition boundary_invariant (visited : list Element.t) (previous : Element.t)
    (st : WalkState) : Prop :=
  forall seg, In seg (fst st) ->
    exists e next,
      consecutive (visited ++ [previous]) e next
      /\ Segment.end_ seg = Element.bottom e.


(** A pushed segment is within the budget, or what it held before its
    last element was no taller than the header. *)
Definition within_budget (maxHeight headerHeight : Q) (elements : list Element.t)
    (seg : Segment.t) : Prop :=
  (Segment.end_ seg - Segment.start seg <= maxHeight)%Q
  \/ exists e_before e,
       consecutive elements e_before e
       /\ Segment.end_ seg = Element.bottom e
       /\ (Element.bottom e_before - Segment.start seg <= headerHeight)%Q.

Definition budget_invariant (maxHeight headerHeight : Q)
    (visited : list Element.t) (previous : Element.t) (st : WalkState) : Prop :=
  let cur := snd st in
  (Segment.height cur == Element.bottom previous - Segment.start cur)%Q
  /\ (forall seg, In seg (fst st) ->
        within_budget maxHeight headerHeight (visited ++ [previous]) seg)
  /\ ((Segment.height cur <= headerHeight)%Q
      \/ (Segment.height cur <= maxHeight)%Q
      \/ exists visited' e_before,
           visited = visited' ++ [e_before]
           /\ (Element.bottom e_before - Segment.start cur <= headerHeight)%Q).

(** ** Part V: sample data *)

(** The two documents of the deep-merge example. *)
Definition nested_target : list (string * YamlData) :=
  [("a", YDict [("b", YInt 1); ("c", YInt 2)])].

(** The store [server.py] builds, with the default locations of the two
    managed files. *)
Definition CONFIG_STORE : ConfigStore :=
  mkConfigStore "config/config.yaml" "config/frequency_words.txt"
    ["/app/config.default/config.yaml"; "config/config.yaml"]
    ["/app/config.default/frequency_words.txt"; "config/frequency_words.txt"].

(** A loader and a dumper for the sample runs.  The loader knows three
    documents: one made of a comment only, which ruamel loads as [None],
    a one-key mapping and a one-item sequence. *)
Definition sample_load (text : string) : option YamlData :=
  if String.eqb text "# no settings yet" then Some YNone
  else if String.eqb text "interval: 30" then Some (YDict [("interval", YInt 30)])
  else if String.eqb text "- a" then Some (YList [YStr "a"])
  else None.

Fixpoint sample_lines (entries : list (string * YamlData)) : string :=
  match entries with
  | [] => EmptyString
  | (k, v) :: rest =>
      k +:+ ": "
      +:+ match v with
          | YInt n => py_str n
          | YStr s => s
          | YBool true => "true"
          | YBool false => "false"
          | _ => "~"
          end
      +:+ ";" +:+ sample_lines rest
  end.

Definition sample_dump (data : YamlData) : string :=
  match data with
  | YDict entries => "{" +:+ sample_lines entries +:+ "}"
  | _ => "~"
  end.

(** The word list exists, no backup of it does, and a bundled default is
    at hand. *)
Definition first_save_world : World :=
  mkWorld
    (<["config/frequency_words.txt" := "first"]>
       (<["/app/config.default/frequency_words.txt" := "default words"]> ∅))
    "20250101-120000" [].


(** The configuration file holds a comment only. *)
Definition comment_only_world : World :=
  mkWorld (<["config/config.yaml" := "# no settings yet"]> ∅) "20250101-120000" [].


(** The configuration file holds a sequence. *)
Definition list_root_world : World :=
  mkWorld (<["config/config.yaml" := "- a"]> ∅) "20250101-120000" [].

(** The bundled default configuration is a mapping. *)
Definition bundled_default_world : World :=
  mkWorld
    (<["config/config.yaml" := "- a"]>
       (<["/app/config.default/config.yaml" := "interval: 30"]> ∅))
    "20250101-120000" [].

(** A rectangle given by its top and bottom, in whole pixels. *)
Definition rect (top bottom : Z) : Rect :=
  mkRect (inject_Z top) (inject_Z bottom) (inject_Z (bottom - top)).

(** One word group with a tall first item: header of the page down to
    10, the group from 10 to 4000 with its items from 20 to 3000 and from
    3000 to 4000, the footer down to 4050. *)
Definition torn_group_page : Page :=
  mkPage (rect 0 4052) 4052 10 None
    [mkWordGroup (rect 10 4000) (Some (rect 10 20)) [rect 20 3000; rect 3000 4000]]
    None (rect 4000 4050) 50.

(** A long list of failed platforms under a header of 50, then one word
    group with one item, then the footer. *)
Definition long_error_page : Page :=
  mkPage (rect 0 3450) 3450 50 (Some (rect 50 3340))
    [mkWordGroup (rect 3340 3410) (Some (rect 3340 3380)) [rect 3380 3410]]
    None (rect 3410 3450) 40.

(** A tall error section and a footer of no height, in a container one
    pixel taller than its content. *)
Definition flat_footer_page : Page :=
  mkPage (rect 0 4001) 4001 10 (Some (rect 10 4000)) [] None (rect 4000 4000) 0.



(** An item with no rank and no address. *)
Definition bare_item : TitleData :=
  mkTitleData "Untitled <draft>" None (Some EmptyString) [] None.
(** ** Part VI: the rest of the store and of the server *)


(** Every dict of the document has pairwise different keys, as every
    Python dict has. *)
Fixpoint keys_distinct (obj : YamlData) : Prop :=
  match obj with
  | YDict entries =>
      NoDup (dict_keys entries)
      /\ (fix all (es : list (string * YamlData)) {struct es} : Prop :=
            match es with
            | [] => True
            | (_, v) :: es' => keys_distinct v /\ all es'
            end) entries
  | YList items =>
      (fix all (vs : list YamlData) {struct vs} : Prop :=
         match vs with
         | [] => True
         | v :: vs' => keys_distinct v /\ all vs'
         end) items
  | _ => True
  end.

Section Reads.

Variable yaml_load : string -> option YamlData.
Variable store : ConfigStore.

(** [ConfigStore.read_words_text]. *)
Definition read_words_text : M string :=
  e ← path_exists (frequency_words_path store);
  if e : bool then read_text (frequency_words_path store) else mret EmptyString.


End Reads.


(** The builtins [int(value)] and [str.strip()] are parameters of the
    code of the server; [py_int] answers [None] where [int] raises
    [ValueError]. *)
Section Server.

Variable py_int : string -> option Z.
Variable strip : string -> string.

(** [_safe_int]. *)
Definition _safe_int (value : option string) (default min_value max_value : Z) : Z :=
  match value with
  | None => default
  | Some text =>
      match py_int text with
      | None => default
      | Some parsed => Z.max min_value (Z.min max_value parsed)
      end
  end.

(** [_safe_str]: [(value or "").strip()]. *)
Definition _safe_str (value : option string) : string :=
  strip (match value with
         | Some text => if str_truthy text then text else EmptyString
         | None => EmptyString
         end).

(** A value bound to a placeholder of a statement. *)
Inductive SqlParam : Type :=
  | PText (text : string) : SqlParam
  | PInt (n : Z) : SqlParam.

(** [sep.join(parts)]. *)
Fixpoint join (sep : string) (parts : list string) : string :=
  match parts with
  | [] => EmptyString
  | [part] => part
  | part :: rest => part +:+ sep +:+ join sep rest
  end.

(** What [search_news] computes before it opens the database. *)
Record SearchPlan : Type := mkSearchPlan {
  plan_query : string;
  plan_platform_id : string;
  plan_sort : string;
  limit_i : Z;
  offset_i : Z;
  where_sql : string;
  params : list SqlParam;
  order_sql : string
}.

(** [sort_map.get(sort, sort_map["last_crawl_time_desc"])]. *)
Definition sort_map_get (sort : string) : string :=
  if String.eqb sort "last_crawl_time_desc" then "n.last_crawl_time DESC"
  else if String.eqb sort "rank_asc" then "n.rank ASC"
  else if String.eqb sort "crawl_count_desc" then "n.crawl_count DESC"
  else "n.last_crawl_time DESC".

(** The head of [search_news], from its arguments to the clauses and
    parameters of its two statements. *)
Definition search_news_plan (q platform_id limit offset sort : option string)
  : SearchPlan :=
  let query := _safe_str q in
  let platform_id := _safe_str platform_id in
  let limit_i := _safe_int limit 50 1 200 in
  let offset_i := _safe_int offset 0 0 1000000 in
  let sort :=
    let s := _safe_str sort in
    if str_truthy s then s else "last_crawl_time_desc" in
  let where_ : list string := [] in
  let params : list SqlParam := [] in
  let '(where_, params) :=
    if str_truthy platform_id
    then (where_ ++ ["n.platform_id = ?"], params ++ [PText platform_id])
    else (where_, params) in
  let '(where_, params) :=
    if str_truthy query
    then (where_ ++ ["n.title LIKE ?"], params ++ [PText ("%" +:+ query +:+ "%")])
    else (where_, params) in
  let where_sql :=
    if list_truthy where_ then "WHERE " +:+ join " AND " where_ else EmptyString in
  mkSearchPlan query platform_id sort limit_i offset_i where_sql params
    (sort_map_get sort).

(** The parameters of the second statement: [[*params, limit_i, offset_i]]. *)
Definition page_params (plan : SearchPlan) : list SqlParam :=
  params plan ++ [PInt (limit_i plan); PInt (offset_i plan)].

(** The text that stands for a secret. *)
Definition redacted_text : string := "***redacted***".

(** [_redact_value]. *)
Definition _redact_value (value : YamlData) : YamlData :=
  match value with
  | YNone => value
  | YStr text =>
      if str_truthy (strip text) then YStr redacted_text else value
  | YList items =>
      if list_truthy items
      then YList (repeat (YStr redacted_text) (length items))
      else value
  | _ => value
  end.

(** [_redact_mapping]: the loop runs on a copy of [mapping]. *)
Fixpoint _redact_mapping (mapping : list (string * YamlData)) (keys : list string)
  : list (string * YamlData) :=
  match keys with
  | [] => mapping
  | k :: keys' =>
      _redact_mapping
        (match dict_get k mapping with
         | Some value => dict_set k (_redact_value value) mapping
         | None => mapping
         end) keys'
  end.

End Server.

(** ** Part VII: the time label of an item ([render_html_content]) *)

(** [s.replace(old, new)] for a non-empty [old]: a scan from the left
    that replaces each occurrence found and resumes after it.  [skip]
    counts the characters of a replaced occurrence still to pass over. *)
Fixpoint replace_from (skip : nat) (old new s : string) : string :=
  match s with
  | EmptyString => EmptyString
  | String c rest =>
      match skip with
      | S skip' => replace_from skip' old new rest
      | O =>
          if String.prefix old s
          then new +:+ replace_from (String.length old - 1) old new rest
          else String c (replace_from 0 old new rest)
      end
  end.

Definition py_replace (old new s : string) : string := replace_from 0 old new s.

(** [time_display.replace(" ~ ", "~").replace("[", "").replace("]", "")]. *)
Definition simplified_time (time_display : string) : string :=
  py_replace "]" EmptyString
    (py_replace "[" EmptyString (py_replace " ~ " "~" time_display)).

(** The characters of a string. *)
Fixpoint chars (s : string) : list ascii :=
  match s with
  | EmptyString => []
  | String c rest => c :: chars rest
  end.

(** *** Notions the further statements use *)

(** [k in d]. *)
Definition has_key (k : string) (d : list (string * YamlData)) : bool :=
  match dict_get k d with Some _ => true | None => false end.

(** The world at another second. *)
Definition at_time (ts : string) (w : World) : World :=
  mkWorld (files w) ts (log w).

(** The number of placeholders of a clause. *)
Fixpoint placeholders (sql : string) : nat :=
  match sql with
  | EmptyString => 0
  | String c rest => (if Ascii.eqb c "?"%char then 1 else 0) + placeholders rest
  end.


(** The result of loading a text. *)
Definition load_result (yaml_load : string -> option YamlData) (text : string)
  : Result YamlData :=
  match yaml_load text with
  | Some data => Ok data
  | None => Raise YamlParseError
  end.

(** The document [patch_config] dumps: the loaded root, an empty dict
    for [None], merged with the patch when the patch is a dict. *)
Definition patched_document (data patch : YamlData) : YamlData :=
  let base := match data with YNone => YDict [] | _ => data end in
  match patch with
  | YDict _ => deep_merge_inplace base patch
  | _ => base
  end.

(** The word list does not exist yet; a bundled default does. *)
Definition unsaved_world : World :=
  mkWorld (<["/app/config.default/frequency_words.txt" := "default words"]> ∅)
    "20250101-120000" [].

(** No configuration yet, and a bundled default that is a mapping. *)
Definition default_only_world : World :=
  mkWorld (<["/app/config.default/config.yaml" := "interval: 30"]> ∅)
    "20250101-120000" [].

(** A configuration that is a mapping. *)
Definition configured_world : World :=
  mkWorld (<["config/config.yaml" := "interval: 30"]> ∅) "20250101-120000" [].

(** Stand-ins for [int] and [str.strip] on the sample requests: decimal
    digits only, and blanks at both ends. *)
Fixpoint digits_value (acc : Z) (s : string) : option Z :=
  match s with
  | EmptyString => Some acc
  | String c rest =>
      let n := Ascii.nat_of_ascii c in
      if (48 <=? n)%nat && (n <=? 57)%nat
      then digits_value (10 * acc + Z.of_nat (n - 48)) rest
      else None
  end.

Definition sample_int (s : string) : option Z :=
  match s with
  | EmptyString => None
  | _ => digits_value 0 s
  end.

Fixpoint strip_left (s : string) : string :=
  match s with
  | String c rest => if Ascii.eqb c " "%char then strip_left rest else s
  | EmptyString => EmptyString
  end.

Fixpoint string_rev (acc s : string) : string :=
  match s with
  | EmptyString => acc
  | String c rest => string_rev (String c acc) rest
  end.

Definition sample_strip (s : string) : string :=
  string_rev EmptyString
    (strip_left (string_rev EmptyString (strip_left s))).

(** An environment with a secret and a plain setting. *)
Definition sample_env : list (string * YamlData) :=
  [("TZ", YStr "Asia/Shanghai"); ("ADMIN_TOKEN", YStr "s3cret");
   ("EMAIL_TO", YList [YStr "a@example.org"; YStr "b@example.org"])].

(** An item seen twice at the same rank. *)
Definition steady_item : TitleData :=
  mkTitleData "Steady" None None [2; 2]%Z None.

(** A short page: header, one word group with one item, footer. *)
Definition short_page : Page :=
  mkPage (rect 0 262) 262 50 None
    [mkWordGroup (rect 50 200) (Some (rect 50 90)) [rect 90 200]]
    None (rect 200 260) 60.

(** The loop pushes nothing at its first turn, and at most one segment
    at each later turn. *)
Definition count_invariant (headerHeight : Q) (visited : list Element.t)
    (previous : Element.t) (st : WalkState) : Prop :=
  (length (fst st) <= Nat.pred (length visited))%nat
  /\ (visited = [] -> Segment.height (snd st) = headerHeight).

(** The flags of the segments pushed and of the current one: the header
    is in the first only. *)
Definition flag_invariant (st : WalkState) : Prop :=
  map Segment.includeHeader (fst st ++ [snd st])
  = true :: repeat false (length (fst st)).

(** A loader that reads back what [sample_dump] writes for the one-key
    documents of the samples. *)
Definition roundtrip_load (text : string) : option YamlData :=
  if String.eqb text "interval: 30" then Some (YDict [("interval", YInt 30)])
  else if String.eqb text "{interval: 60;}" then Some (YDict [("interval", YInt 60)])
  else None.

(** * Properties *)

(** ** Deep merge *)

Lemma merge_loop_eq (ps ts : list (string * YamlData)) :
  deep_merge_inplace (YDict ts) (YDict ps) = YDict (merge_items ps ts).
Proof.
  reflexivity.
Qed.

Lemma dict_get_set_eq (k : string) (v : YamlData) (d : list (string * YamlData)) :
  dict_get k (dict_set k v d) = Some v.
Proof.
  induction d as [|[k' v'] d IH]; simpl.
  - now rewrite String.eqb_refl.
  - destruct (String.eqb k k') eqn:E; simpl; rewrite E; [reflexivity|exact IH].
Qed.

Lemma dict_get_set_ne (k k' : string) (v : YamlData) (d : list (string * YamlData)) :
  k <> k' -> dict_get k (dict_set k' v d) = dict_get k d.
Proof.
  intros Hne. induction d as [|[k0 v0] d IH]; simpl.
  - destruct (String.eqb k k') eqn:E; [|reflexivity].
    apply String.eqb_eq in E. contradiction.
  - destruct (String.eqb k' k0) eqn:E; simpl.
    + apply String.eqb_eq in E. subst k0.
      destruct (String.eqb k k') eqn:E'; [|reflexivity].
      apply String.eqb_eq in E'. contradiction.
    + now rewrite IH.
Qed.

Lemma dict_get_None_keys (k : string) (d : list (string * YamlData)) :
  k ∉ dict_keys d -> dict_get k d = None.
Proof.
  induction d as [|[k' v'] d IH]; simpl; [reflexivity|].
  intros [Hne Hn]%not_elem_of_cons. destruct (String.eqb k k') eqn:E.
  - apply String.eqb_eq in E. contradiction.
  - now apply IH.
Qed.

Lemma merge_items_step (k : string) (v : YamlData) (ps ts : list (string * YamlData)) :
  merge_items ((k, v) :: ps) ts
  = merge_items ps (dict_set k (merged_value (dict_get k ts) v) ts).
Proof.
  simpl. f_equal. unfold merged_value.
  destruct (dict_get k ts) as [[]|]; try reflexivity.
  destruct v; reflexivity.
Qed.

Lemma merge_items_untouched (k : string) (ps ts : list (string * YamlData)) :
  dict_get k ps = None -> dict_get k (merge_items ps ts) = dict_get k ts.
Proof.
  revert ts. induction ps as [|[k' v'] ps IH]; intros ts Hk; [reflexivity|].
  rewrite merge_items_step. simpl in Hk.
  destruct (String.eqb k k') eqn:E; [discriminate|].
  rewrite (IH _ Hk). apply dict_get_set_ne.
  intros ->. now rewrite String.eqb_refl in E.
Qed.

Lemma merge_items_visited (k : string) (v : YamlData) (ps ts : list (string * YamlData)) :
  NoDup (dict_keys ps) -> dict_get k ps = Some v ->
  dict_get k (merge_items ps ts) = Some (merged_value (dict_get k ts) v).
Proof.
  revert ts. induction ps as [|[k' v'] ps IH]; intros ts Hnd Hk; [discriminate|].
  rewrite merge_items_step. simpl in Hk, Hnd.
  apply NoDup_cons in Hnd as [Hnot Hnd].
  destruct (String.eqb k k') eqn:E.
  - apply String.eqb_eq in E. subst k'. injection Hk as ->.
    rewrite merge_items_untouched by now apply dict_get_None_keys.
    apply dict_get_set_eq.
  - rewrite (IH _ Hnd Hk). rewrite dict_get_set_ne; [reflexivity|].
    intros ->. now rewrite String.eqb_refl in E.
Qed.

(** Claim C3.  Merging a mapping patch into a mapping target works key by
    key.  At a key of the patch where both sides hold mappings the result
    holds the merge of the two, computed by the same loop; at any other
    key of the patch the value of the patch replaces what the target
    held, whatever its kind; a key the patch does not mention keeps its
    value.  Patching [{a: {b: 1, c: 2}}] with [{a: {b: 99}}] gives
    [{a: {b: 99, c: 2}}], and with [{a: [1, 2]}] gives [{a: [1, 2]}]. *)
Theorem deep_merge_key_by_key :
  (forall target patch : list (string * YamlData),
      NoDup (dict_keys patch) ->
      exists merged,
        deep_merge_inplace (YDict target) (YDict patch) = YDict merged
        /\ (forall k sub sub',
              dict_get k target = Some (YDict sub) ->
              dict_get k patch = Some (YDict sub') ->
              dict_get k merged = Some (deep_merge_inplace (YDict sub) (YDict sub'))
              /\ deep_merge_inplace (YDict sub) (YDict sub')
                 = YDict (merge_items sub' sub))
        /\ (forall k v,
              dict_get k patch = Some v ->
              is_dict v = false \/ (forall sub, dict_get k target <> Some (YDict sub)) ->
              dict_get k merged = Some v)
        /\ (forall k, dict_get k patch = None -> dict_get k merged = dict_get k target))
  /\ deep_merge_inplace (YDict nested_target) (YDict [("a", YDict [("b", YInt 99)])])
     = YDict [("a", YDict [("b", YInt 99); ("c", YInt 2)])]
  /\ deep_merge_inplace (YDict nested_target) (YDict [("a", YList [YInt 1; YInt 2])])
     = YDict [("a", YList [YInt 1; YInt 2])].
Proof.
  split; [|split; reflexivity].
  intros target patch Hnd. exists (merge_items patch target).
  split; [apply merge_loop_eq|]. split; [|split].
  - intros k sub sub' Ht Hp. split; [|apply merge_loop_eq].
    rewrite (merge_items_visited _ _ _ _ Hnd Hp), Ht. reflexivity.
  - intros k v Hp Hcase.
    rewrite (merge_items_visited _ _ _ _ Hnd Hp). f_equal.
    unfold merged_value. destruct Hcase as [Hv|Ht].
    + destruct v; try discriminate; destruct (dict_get k target) as [[]|]; reflexivity.
    + destruct (dict_get k target) as [[]|] eqn:E; try reflexivity.
      now destruct (Ht entries).
  - intros k Hp. now apply merge_items_untouched.
Qed.

Lemma deep_merge_key_by_key_witness :
  exists merged,
    deep_merge_inplace (YDict nested_target) (YDict [("a", YDict [("b", YInt 99)])])
    = YDict merged
    /\ dict_get "a" merged = Some (YDict [("b", YInt 99); ("c", YInt 2)]).
Proof.
  destruct (proj1 deep_merge_key_by_key nested_target [("a", YDict [("b", YInt 99)])])
    as (merged & Hmerged & Hboth & _).
  - apply NoDup_singleton.
  - exists merged. split; [exact Hmerged|].
    destruct (Hboth "a" [("b", YInt 1); ("c", YInt 2)] [("b", YInt 99)]
                eq_refl eq_refl) as [-> _].
    reflexivity.
Defined.

(** ** The store *)

Ltac run_monad :=
  unfold mbind, M_bind, mret, M_ret, raise, path_exists, read_text, write_text,
    mkdir_parents, now_stamp; simpl.

Lemma append_same_left (p s : string) : p +:+ s = p -> s = EmptyString.
Proof.
  induction p as [|c p IH]; simpl; intros H; [exact H|].
  injection H as H. now apply IH.
Qed.

Lemma backup_path_differs (path ts : string) : backup_path path ts <> path.
Proof.
  unfold backup_path. intros H. apply append_same_left in H. discriminate.
Qed.

Lemma write_with_backup_existing (path content old : string) (w : World) :
  files w !! path = Some old ->
  write_with_backup path content w
  = (Ok tt,
     mkWorld (<[path := content]> (<[backup_path path (clock w) := old]> (files w)))
       (clock w)
       (log w ++ [MkdirParents path; WriteText (backup_path path (clock w)) old;
                  WriteText path content])).
Proof.
  intros Hold. unfold write_with_backup. run_monad.
  rewrite bool_decide_eq_true_2 by eauto. simpl.
  rewrite Hold. simpl. now rewrite <- !app_assoc.
Qed.

Lemma write_with_backup_absent (path content : string) (w : World) :
  files w !! path = None ->
  write_with_backup path content w
  = (Ok tt,
     mkWorld (<[path := content]> (files w)) (clock w)
       (log w ++ [MkdirParents path; WriteText path content])).
Proof.
  intros Hnone. unfold write_with_backup. run_monad.
  rewrite bool_decide_eq_false_2 by (rewrite Hnone; intros [? ?]; discriminate).
  simpl. now rewrite <- !app_assoc.
Qed.



Lemma first_existing_None (fs : gmap string string) (candidates : list string) :
  first_existing fs candidates = None <->
  Forall (fun q => fs !! q = None) candidates.
Proof.
  induction candidates as [|q rest IH]; simpl; [split; auto|].
  case_bool_decide as Hq.
  - split; [discriminate|]. intros H. inversion H as [|? ? Hnone]; subst.
    rewrite Hnone in Hq. destruct Hq; discriminate.
  - rewrite IH. split.
    + intros H. constructor; [|exact H].
      destruct (fs !! q) eqn:E; [exfalso; apply Hq; eauto|reflexivity].
    + intros H. now inversion H.
Qed.

(** [_read_default_text] reads the first candidate that exists and
    leaves the world as it is. *)
Lemma read_default_text_first (candidates : list string) (w : World) :
  _read_default_text candidates w
  = (Ok (match first_existing (files w) candidates with
         | Some p => files w !! p
         | None => None
         end), w).
Proof.
  induction candidates as [|q rest IH]; simpl; [reflexivity|].
  run_monad. case_bool_decide as Hq; simpl.
  - destruct Hq as [text Ht]. now rewrite Ht.
  - exact IH.
Qed.

Lemma first_existing_intro (fs : gmap string string) (before after : list string)
    (p text : string) :
  Forall (fun q => fs !! q = None) before ->
  fs !! p = Some text ->
  first_existing fs (before ++ p :: after) = Some p.
Proof.
  intros Hb Hp. induction Hb as [|q before Hq Hb IH]; simpl.
  - rewrite bool_decide_eq_true_2; eauto.
  - rewrite bool_decide_eq_false_2; [exact IH|].
    rewrite Hq. intros [? ?]; discriminate.
Qed.

Section StoreFacts.

Variable yaml_load : string -> option YamlData.
Variable yaml_dump : YamlData -> string.
Variable store : ConfigStore.

Lemma read_config_text_pure (w : World) :
  snd (read_config_text store w) = w.
Proof.
  unfold read_config_text. run_monad.
  case_bool_decide as He; simpl; [|reflexivity].
  now destruct (files w !! config_path store).
Qed.

Lemma load_text_pure (text : string) (w : World) :
  snd (load_text yaml_load text w) = w.
Proof. unfold load_text. now destruct (yaml_load text). Qed.

Lemma load_config_yaml_pure (w : World) :
  snd (load_config_yaml yaml_load store w) = w.
Proof.
  unfold load_config_yaml. run_monad.
  pose proof (read_config_text_pure w) as Hr.
  destruct (read_config_text store w) as [[text|e] w0]; simpl in Hr; subst w0;
    [|reflexivity].
  destruct (str_truthy text) eqn:Et; simpl.
  - rewrite Et. apply load_text_pure.
  - unfold read_default_config_text. rewrite read_default_text_first. simpl.
    match goal with |- context [str_truthy ?t] => destruct (str_truthy t) end;
      [apply load_text_pure|reflexivity].
Qed.

(** A successful operation is one call of [write_with_backup] on its
    destination, run in the world the operation started in. *)
Lemma run_success (op : Operation) (w w' : World) (result : string) :
  run yaml_load yaml_dump store op w = (Ok result, w') ->
  result = destination store op
  /\ exists content,
       write_with_backup (destination store op) content w = (Ok tt, w').
Proof.
  destruct op as [patch| |]; simpl.
  - unfold patch_config. run_monad.
    pose proof (load_config_yaml_pure w) as Hl.
    destruct (load_config_yaml yaml_load store w) as [[data|e] w0];
      simpl in Hl; subst w0; [|discriminate].
    match goal with |- context [is_dict ?d] => destruct (is_dict d) end;
      [|discriminate].
    match goal with |- context [write_with_backup ?p ?c w] =>
      destruct (write_with_backup p c w) as [[[]|e] w1] eqn:Ew end;
      [|discriminate].
    intros [= <- <-]. eauto.
  - unfold reset_config_to_default, read_default_config_text. run_monad.
    rewrite read_default_text_first.
    match goal with |- context [match ?o with Some _ => _ | None => _ end] =>
      destruct o as [text|] end; [|discriminate].
    destruct (str_truthy text); [|discriminate].
    pose proof (load_text_pure text w) as Hl.
    destruct (load_text yaml_load text w) as [[parsed|e] w0];
      simpl in Hl; subst w0; [|discriminate].
    destruct (is_dict parsed); [|discriminate].
    destruct (write_with_backup (config_path store) text w) as [[[]|e] w1] eqn:Ew;
      [|discriminate].
    intros [= <- <-]. eauto.
  - unfold reset_words_to_default, read_default_words_text. run_monad.
    rewrite read_default_text_first.
    match goal with |- context [match ?o with Some _ => _ | None => _ end] =>
      destruct o as [text|] end; [|discriminate].
    destruct (write_with_backup (frequency_words_path store) text w)
      as [[[]|e] w1] eqn:Ew; [|discriminate].
    intros [= <- <-]. eauto.
Qed.


(** Claim C7, amended.  When the configuration loads to a root that is
    neither [None] nor a mapping, [patch_config] raises the [ValueError]
    of an invalid document and the world is as before the call: no
    file written, no backup made, nothing logged. *)
Theorem patch_invalid_root_aborts (patch data : YamlData) (w : World) :
  fst (load_config_yaml yaml_load store w) = Ok data ->
  data <> YNone ->
  is_dict data = false ->
  patch_config yaml_load yaml_dump store patch w
  = (Raise (ValueError "Config YAML root must be a mapping"), w).
Proof.
  intros Hload Hnone Hdict. unfold patch_config. run_monad.
  pose proof (load_config_yaml_pure w) as Hl.
  destruct (load_config_yaml yaml_load store w) as [r w0].
  simpl in Hl, Hload. subst w0 r.
  destruct data; try discriminate; try reflexivity. contradiction.
Qed.

Lemma write_with_backup_writes (path content : string) (w : World) :
  exists w',
    write_with_backup path content w = (Ok tt, w')
    /\ files w' !! path = Some content.
Proof.
  destruct (files w !! path) as [old|] eqn:Eo.
  - rewrite (write_with_backup_existing _ _ _ _ Eo).
    eexists; split; [reflexivity|]. apply lookup_insert_eq.
  - rewrite (write_with_backup_absent _ _ _ Eo).
    eexists; split; [reflexivity|]. apply lookup_insert_eq.
Qed.

Lemma str_truthy_false (s : string) : str_truthy s = false <-> s = EmptyString.
Proof. destruct s; simpl; split; congruence. Qed.

(** What [reset_config_to_default] does, by the first default that
    exists. *)
Lemma reset_config_cases (w : World) :
  reset_config_to_default yaml_load store w
  = match first_existing (files w) (default_config_candidates store) with
    | Some p =>
        match files w !! p with
        | Some text =>
            if str_truthy text then
              match yaml_load text with
              | Some (YDict _) =>
                  (Ok (config_path store),
                   snd (write_with_backup (config_path store) text w))
              | Some _ => (Raise (ValueError "Default config is invalid"), w)
              | None => (Raise YamlParseError, w)
              end
            else (Raise (FileNotFoundError "Default config template not found"), w)
        | None => (Raise (FileNotFoundError "Default config template not found"), w)
        end
    | None => (Raise (FileNotFoundError "Default config template not found"), w)
    end.
Proof.
  unfold reset_config_to_default, read_default_config_text. run_monad.
  rewrite read_default_text_first.
  destruct (first_existing (files w) (default_config_candidates store))
    as [p|]; [|reflexivity].
  destruct (files w !! p) as [text|]; [|reflexivity].
  destruct (str_truthy text); [|reflexivity].
  unfold load_text. destruct (yaml_load text) as [parsed|]; [|reflexivity].
  destruct parsed; simpl; try reflexivity.
  destruct (write_with_backup_writes (config_path store) text w) as (w' & -> & _).
  reflexivity.
Qed.

Lemma reset_words_cases (w : World) :
  reset_words_to_default store w
  = match first_existing (files w) (default_words_candidates store) with
    | Some p =>
        match files w !! p with
        | Some text =>
            (Ok (frequency_words_path store),
             snd (write_with_backup (frequency_words_path store) text w))
        | None =>
            (Raise (FileNotFoundError "Default frequency_words template not found"), w)
        end
    | None =>
        (Raise (FileNotFoundError "Default frequency_words template not found"), w)
    end.
Proof.
  unfold reset_words_to_default, read_default_words_text. run_monad.
  rewrite read_default_text_first.
  destruct (first_existing (files w) (default_words_candidates store))
    as [p|]; [|reflexivity].
  destruct (files w !! p) as [text|]; [|reflexivity].
  destruct (write_with_backup_writes (frequency_words_path store) text w)
    as (w' & -> & _).
  reflexivity.
Qed.


End StoreFacts.

(** ** The store on the sample worlds *)



(** A configuration whose root is a sequence. *)
Lemma patch_invalid_root_aborts_witness :
  patch_config sample_load sample_dump CONFIG_STORE
    (YDict [("interval", YInt 60)]) list_root_world
  = (Raise (ValueError "Config YAML root must be a mapping"), list_root_world).
Proof.
  apply (patch_invalid_root_aborts sample_load sample_dump CONFIG_STORE
           (YDict [("interval", YInt 60)]) (YList [YStr "a"]) list_root_world).
  - vm_compute. reflexivity.
  - discriminate.
  - reflexivity.
Defined.

(** Against claim C7 as stated: a root that is [None] is not a mapping,
    yet the patch completes, makes a backup and writes the file. *)
Lemma patch_null_root_writes :
  let w := comment_only_world in
  let patch := YDict [("interval", YInt 60)] in
  exists w',
    fst (load_config_yaml sample_load CONFIG_STORE w) = Ok YNone
    /\ is_dict YNone = false
    /\ patch_config sample_load sample_dump CONFIG_STORE patch w
       = (Ok "config/config.yaml", w')
    /\ files w' !! "config/config.yaml" = Some "{interval: 60;}"
    /\ files w' !! "config/config.yaml.bak.20250101-120000" = Some "# no settings yet"
    /\ log w' = [MkdirParents "config/config.yaml";
                 WriteText "config/config.yaml.bak.20250101-120000" "# no settings yet";
                 WriteText "config/config.yaml" "{interval: 60;}"].
Proof.
  eexists. split; [vm_compute; reflexivity|]. split; [reflexivity|].
  split; [vm_compute; reflexivity|].
  repeat split; vm_compute; reflexivity.
Qed.



(** ** The segments *)

Lemma Qgtb_true (a b : Q) : Qgtb a b = true <-> (b < a)%Q.
Proof.
  unfold Qgtb. rewrite (Qgt_alt a b).
  destruct (a ?= b)%Q; split; congruence.
Qed.

Lemma Qgtb_false (a b : Q) : Qgtb a b = false <-> (a <= b)%Q.
Proof.
  split.
  - intros H. apply Qnot_lt_le. intros Hlt. apply Qgtb_true in Hlt. congruence.
  - intros H. destruct (Qgtb a b) eqn:E; [|reflexivity].
    apply Qgtb_true in E. apply Qle_not_lt in H. contradiction.
Qed.

(** The two outcomes of one turn of the loop. *)
Lemma walk_step_cases (maxHeight headerHeight : Q) (previous element : Element.t)
    (segments : list Segment.t) (cur : Segment.t) :
  ((maxHeight < Element.bottom element - Segment.start cur)%Q
   /\ (headerHeight < Segment.height cur)%Q
   /\ walk_step maxHeight headerHeight previous element (segments, cur)
      = (segments ++ [Segment.mk (Segment.start cur) (Element.bottom previous)
                        (Segment.height cur) (Segment.includeHeader cur)],
         Segment.mk (Element.bottom previous) 0
           (Element.bottom element - Element.bottom previous)%Q false))
  \/
  (((Element.bottom element - Segment.start cur <= maxHeight)%Q
    \/ (Segment.height cur <= headerHeight)%Q)
   /\ walk_step maxHeight headerHeight previous element (segments, cur)
      = (segments,
         Segment.mk (Segment.start cur) (Element.bottom element)
           (Element.bottom element - Segment.start cur)%Q
           (Segment.includeHeader cur))).
Proof.
  unfold walk_step.
  destruct (Qgtb (Element.bottom element - Segment.start cur) maxHeight) eqn:E1;
    [destruct (Qgtb (Segment.height cur) headerHeight) eqn:E2|]; simpl.
  - left. apply Qgtb_true in E1, E2. auto.
  - right. apply Qgtb_false in E2. auto.
  - right. apply Qgtb_false in E1. auto.
Qed.

(** An invariant of the loop body is an invariant of the loop.  The
    invariant sees the elements already visited, the last of them apart. *)
Lemma walk_invariant (maxHeight headerHeight : Q)
    (Inv : list Element.t -> Element.t -> WalkState -> Prop) :
  (forall visited previous element st,
      Inv visited previous st ->
      Inv (visited ++ [previous]) element
        (walk_step maxHeight headerHeight previous element st)) ->
  forall rest visited previous st,
    Inv visited previous st ->
    exists visited' final,
      visited ++ previous :: rest = visited' ++ [final]
      /\ Inv visited' final (walk maxHeight headerHeight previous rest st).
Proof.
  intros Hstep rest. induction rest as [|element rest IH]; intros visited previous st Hinv.
  - exists visited, previous. auto.
  - simpl. destruct (IH _ _ _ (Hstep visited previous element st Hinv))
      as (visited' & final & Heq & Hfin).
    exists visited', final. split; [|exact Hfin].
    rewrite <- Heq, <- app_assoc. reflexivity.
Qed.

Lemma tiles_snoc (a b : Q) (segments : list Segment.t) (s : Segment.t) :
  tiles a segments b -> Segment.start s = b ->
  (Segment.start s < Segment.end_ s)%Q ->
  tiles a (segments ++ [s]) (Segment.end_ s).
Proof.
  revert a. induction segments as [|s0 segments IH]; simpl; intros a Ht Hs Hlt.
  - subst. auto.
  - destruct Ht as (H1 & H2 & H3). auto.
Qed.

Lemma tiling_invariant_step (maxHeight headerHeight : Q) (previous element : Element.t)
    (st : WalkState) :
  (0 <= headerHeight)%Q ->
  tiling_invariant previous st ->
  tiling_invariant element (walk_step maxHeight headerHeight previous element st).
Proof.
  intros Hh [Hheight Htiles]. destruct st as [segments cur].
  simpl in Hheight, Htiles. unfold tiling_invariant.
  destruct (walk_step_cases maxHeight headerHeight previous element segments cur)
    as [(Hover & Hmore & ->)|(_ & ->)]; split; simpl.
  - reflexivity.
  - apply (tiles_snoc 0 (Segment.start cur) segments
             (Segment.mk (Segment.start cur) (Element.bottom previous)
                (Segment.height cur) (Segment.includeHeader cur)));
      simpl; [exact Htiles|reflexivity|lra].
  - reflexivity.
  - exact Htiles.
Qed.

Lemma run_walk_tiling (maxHeight headerHeight : Q) (first : Element.t)
    (rest : list Element.t) :
  (0 <= headerHeight)%Q ->
  (Element.bottom first == headerHeight)%Q ->
  exists final,
    In final (first :: rest)
    /\ tiling_invariant final (run_walk maxHeight headerHeight (first :: rest)).
Proof.
  intros Hh Hfirst. unfold run_walk.
  destruct (walk_invariant maxHeight headerHeight
              (fun _ previous st => tiling_invariant previous st)
              (fun _ previous element st =>
                 tiling_invariant_step maxHeight headerHeight previous element st Hh)
              rest [] first ([], Segment.mk 0 0 headerHeight true))
    as (visited' & final & Heq & Hinv).
  - split; simpl; [lra|reflexivity].
  - exists final. split; [|exact Hinv].
    simpl in Heq. rewrite Heq. apply in_or_app. right. now left.
Qed.

(** Claim C4, amended.  Let the header height be non-negative and be the
    bottom of the first element, let no element end below the total
    height, and let the height tracked for the last segment be positive
    (the test the script makes before it pushes that segment).  Then the
    segments are not empty and tile the document: the first starts at 0,
    each one has its start before its end and starts where the one
    before ends, and the last ends at the total height. *)
Theorem segments_tile_document (maxHeight headerHeight totalHeight : Q)
    (first : Element.t) (rest : list Element.t) :
  (0 <= headerHeight)%Q ->
  (Element.bottom first == headerHeight)%Q ->
  Forall (fun e => (Element.bottom e <= totalHeight)%Q) (first :: rest) ->
  (0 < Segment.height (snd (run_walk maxHeight headerHeight (first :: rest))))%Q ->
  compute_segments maxHeight headerHeight totalHeight (first :: rest) <> []
  /\ tiles 0 (compute_segments maxHeight headerHeight totalHeight (first :: rest))
       totalHeight.
Proof.
  intros Hh Hfirst Hinside Hpos.
  destruct (run_walk_tiling maxHeight headerHeight first rest Hh Hfirst)
    as (final & Hin & Hheight & Htiles).
  unfold compute_segments.
  destruct (run_walk maxHeight headerHeight (first :: rest)) as [segments cur].
  simpl in *. unfold finish.
  rewrite (proj2 (Qgtb_true _ _) Hpos).
  split; [intros Hnil; now apply app_eq_nil in Hnil as [_ ?]|].
  rewrite List.Forall_forall in Hinside. specialize (Hinside final Hin).
  apply (tiles_snoc 0 (Segment.start cur) segments
           (Segment.mk (Segment.start cur) totalHeight (Segment.height cur)
              (Segment.includeHeader cur))); simpl; [exact Htiles|reflexivity|lra].
Qed.

Lemma last_cons (l : list Element.t) (e d : Element.t) :
  List.last (e :: l) d = List.last l e.
Proof.
  revert e d. induction l as [|a l IH]; intros e d; [reflexivity|].
  change (List.last (e :: a :: l) d) with (List.last (a :: l) d).
  now rewrite !IH.
Qed.

Lemma walk_app (maxHeight headerHeight : Q) (rest1 rest2 : list Element.t)
    (previous : Element.t) (st : WalkState) :
  walk maxHeight headerHeight previous (rest1 ++ rest2) st
  = walk maxHeight headerHeight (List.last rest1 previous) rest2
      (walk maxHeight headerHeight previous rest1 st).
Proof.
  revert previous st. induction rest1 as [|e rest1 IH]; intros previous st.
  - reflexivity.
  - rewrite last_cons. simpl. apply IH.
Qed.

(** With bottoms that never decrease, the current segment starts at or
    above the bottom of the last element visited. *)
Lemma walk_start_below (maxHeight headerHeight : Q) (rest : list Element.t) :
  forall (previous : Element.t) (st : WalkState),
    Sorted (fun a b => (Element.bottom a <= Element.bottom b)%Q) (previous :: rest) ->
    (Segment.start (snd st) <= Element.bottom previous)%Q ->
    (Segment.start (snd (walk maxHeight headerHeight previous rest st))
     <= Element.bottom (List.last rest previous))%Q.
Proof.
  induction rest as [|e rest IH]; intros previous st Hsorted Hstart; [exact Hstart|].
  apply Sorted_inv in Hsorted as [Hsorted Hhd]. apply HdRel_inv in Hhd.
  simpl walk.
  rewrite last_cons.
  apply IH; [exact Hsorted|].
  destruct st as [segments cur]. simpl in Hstart.
  destruct (walk_step_cases maxHeight headerHeight previous e segments cur)
    as [(_ & _ & ->)|(_ & ->)]; simpl; lra.
Qed.

(** A sufficient condition for the last segment to be pushed: bottoms
    never decrease and the last element ends strictly below the one
    before it. *)
Lemma last_segment_emitted (maxHeight headerHeight : Q) (first lst : Element.t)
    (middle : list Element.t) :
  (0 <= headerHeight)%Q ->
  (Element.bottom first == headerHeight)%Q ->
  Sorted (fun a b => (Element.bottom a <= Element.bottom b)%Q) (first :: middle) ->
  (Element.bottom (List.last middle first) < Element.bottom lst)%Q ->
  (0 < Segment.height
         (snd (run_walk maxHeight headerHeight (first :: middle ++ [lst]))))%Q.
Proof.
  intros Hh Hfirst Hsorted Hlast. unfold run_walk. rewrite walk_app. simpl walk.
  pose proof (walk_start_below maxHeight headerHeight middle first
                ([], Segment.mk 0 0 headerHeight true) Hsorted) as Hstart.
  simpl in Hstart. assert (H0 : (0 <= Element.bottom first)%Q) by lra.
  specialize (Hstart H0).
  destruct (walk maxHeight headerHeight first middle
              ([], Segment.mk 0 0 headerHeight true)) as [segments cur].
  simpl in Hstart.
  destruct (walk_step_cases maxHeight headerHeight (List.last middle first) lst segments cur)
    as [(_ & _ & ->)|(_ & ->)]; simpl; lra.
Qed.

(** *** Where the boundaries fall *)

Lemma consecutive_snoc (elements : list Element.t) (e next extra : Element.t) :
  consecutive elements e next -> consecutive (elements ++ [extra]) e next.
Proof.
  intros (before & after & ->). exists before, (after ++ [extra]).
  now rewrite <- app_assoc.
Qed.

Lemma consecutive_last_two (visited : list Element.t) (e next : Element.t) :
  consecutive ((visited ++ [e]) ++ [next]) e next.
Proof. exists visited, []. now rewrite <- app_assoc. Qed.

Lemma boundary_invariant_step (maxHeight headerHeight : Q)
    (visited : list Element.t) (previous element : Element.t) (st : WalkState) :
  boundary_invariant visited previous st ->
  boundary_invariant (visited ++ [previous]) element
    (walk_step maxHeight headerHeight previous element st).
Proof.
  intros Hinv. destruct st as [segments cur]. unfold boundary_invariant in *.
  simpl in Hinv.
  destruct (walk_step_cases maxHeight headerHeight previous element segments cur)
    as [(_ & _ & ->)|(_ & ->)]; simpl; intros seg Hin.
  - apply in_app_or in Hin as [Hin|[<-|[]]].
    + destruct (Hinv seg Hin) as (e & next & Hc & He).
      exists e, next. split; [now apply consecutive_snoc|exact He].
    + exists previous, element. split; [apply consecutive_last_two|reflexivity].
  - destruct (Hinv seg Hin) as (e & next & Hc & He).
    exists e, next. split; [now apply consecutive_snoc|exact He].
Qed.

Lemma run_walk_boundaries (maxHeight headerHeight : Q) (elements : list Element.t)
    (seg : Segment.t) :
  In seg (fst (run_walk maxHeight headerHeight elements)) ->
  exists e next,
    consecutive elements e next /\ Segment.end_ seg = Element.bottom e.
Proof.
  unfold run_walk. destruct elements as [|first rest]; [intros []|].
  destruct (walk_invariant maxHeight headerHeight boundary_invariant
              (boundary_invariant_step maxHeight headerHeight)
              rest [] first ([], Segment.mk 0 0 headerHeight true))
    as (visited' & final & Heq & Hinv).
  - intros seg' [].
  - intros Hin. simpl in Heq. rewrite Heq. exact (Hinv seg Hin).
Qed.

(** A segment that is not the last one emitted was pushed by the loop. *)
Lemma inner_segment_pushed (totalHeight : Q) (st : WalkState)
    (before after : list Segment.t) (seg next : Segment.t) :
  finish totalHeight st = before ++ seg :: next :: after ->
  In seg (fst st).
Proof.
  destruct st as [segments cur]. unfold finish. simpl.
  destruct (Qgtb (Segment.height cur) 0).
  - intros Heq.
    destruct (exists_last (l := next :: after)) as (after' & z & Hz); [discriminate|].
    rewrite Hz in Heq.
    replace (before ++ seg :: after' ++ [z]) with ((before ++ seg :: after') ++ [z])
      in Heq by now rewrite <- app_assoc.
    apply app_inj_tail in Heq as [-> _].
    apply in_or_app. right. now left.
  - intros ->. apply in_or_app. right. now left.
Qed.

Lemma ordered_split (before after : list Element.t) (e x : Element.t) :
  layout_ordered (before ++ e :: after) ->
  In x (before ++ e :: after) ->
  (Element.bottom x <= Element.bottom e)%Q \/ (Element.bottom e <= Element.top x)%Q.
Proof.
  intros [Hext Hsorted] Hin.
  rewrite List.Forall_forall in Hext.
  induction before as [|b before IH]; simpl in *.
  - destruct Hin as [<-|Hin]; [left; lra|].
    right. apply StronglySorted_inv in Hsorted as [_ Hall].
    rewrite List.Forall_forall in Hall. now apply Hall.
  - apply StronglySorted_inv in Hsorted as [Hsorted Hall].
    destruct Hin as [<-|Hin].
    + left. rewrite List.Forall_forall in Hall.
      assert (He : In e (before ++ e :: after)) by (apply in_or_app; right; now left).
      specialize (Hall e He). specialize (Hext e (or_intror He)). lra.
    + apply IH; auto.
Qed.

(** Claim C2, amended.  The end of every emitted segment that has a
    successor is the bottom of an element of the array that itself has a
    successor: boundaries fall between two consecutive entries, which
    are the header, the error section, the header of a word group, a
    single news item, the section of new titles or the footer.  When the
    elements are laid out in document order, no element is cut by a
    boundary.  Two items of one word group may end up in different
    segments. *)
Theorem boundaries_fall_between_elements (maxHeight headerHeight totalHeight : Q)
    (elements : list Element.t) (before after : list Segment.t)
    (seg next : Segment.t) :
  compute_segments maxHeight headerHeight totalHeight elements
  = before ++ seg :: next :: after ->
  exists e e',
    consecutive elements e e'
    /\ Segment.end_ seg = Element.bottom e
    /\ (layout_ordered elements ->
        forall x, In x elements ->
          ~ ((Element.top x < Segment.end_ seg)%Q
             /\ (Segment.end_ seg < Element.bottom x)%Q)).
Proof.
  intros Hout. apply inner_segment_pushed in Hout.
  destruct (run_walk_boundaries _ _ _ _ Hout) as (e & e' & Hc & He).
  exists e, e'. split; [exact Hc|]. split; [exact He|].
  intros Hord x Hx [Hlo Hhi]. rewrite He in Hlo, Hhi.
  destruct Hc as (l1 & l2 & ->).
  destruct (ordered_split l1 (e' :: l2) e x Hord Hx); lra.
Qed.

(** *** The budget *)

Lemma within_budget_snoc (maxHeight headerHeight : Q) (elements : list Element.t)
    (extra : Element.t) (seg : Segment.t) :
  within_budget maxHeight headerHeight elements seg ->
  within_budget maxHeight headerHeight (elements ++ [extra]) seg.
Proof.
  intros [Hle|(e_before & e & Hc & He & Hb)]; [now left|].
  right. exists e_before, e. split; [now apply consecutive_snoc|auto].
Qed.

Lemma budget_invariant_step (maxHeight headerHeight : Q)
    (visited : list Element.t) (previous element : Element.t) (st : WalkState) :
  (0 <= headerHeight)%Q ->
  budget_invariant maxHeight headerHeight visited previous st ->
  budget_invariant maxHeight headerHeight (visited ++ [previous]) element
    (walk_step maxHeight headerHeight previous element st).
Proof.
  intros Hh (Hheight & Hsegs & Hcur). destruct st as [segments cur].
  simpl in Hheight, Hsegs, Hcur. unfold budget_invariant.
  destruct (walk_step_cases maxHeight headerHeight previous element segments cur)
    as [(Hover & Hmore & ->)|(Hfits & ->)]; simpl.
  - split; [reflexivity|]. split.
    + intros seg Hin. apply in_app_or in Hin as [Hin|[<-|[]]].
      * apply within_budget_snoc. now apply Hsegs.
      * apply within_budget_snoc.
        destruct Hcur as [Hc|[Hc|(visited' & e_before & -> & Hc)]].
        -- lra.
        -- left. simpl. lra.
        -- right. exists e_before, previous.
           split; [apply consecutive_last_two|]. split; [reflexivity|exact Hc].
    + right. right. exists visited, previous. split; [reflexivity|]. simpl. lra.
  - split; [reflexivity|]. split.
    + intros seg Hin. apply within_budget_snoc. now apply Hsegs.
    + destruct Hfits as [Hfits|Hsmall].
      * right. left. exact Hfits.
      * right. right. exists visited, previous. split; [reflexivity|]. lra.
Qed.

(** What [finish] adds to the segments pushed by the loop. *)
Lemma finish_cases (totalHeight : Q) (st : WalkState) :
  finish totalHeight st = fst st
  \/ exists last_segment,
       finish totalHeight st = fst st ++ [last_segment]
       /\ Segment.start last_segment = Segment.start (snd st)
       /\ Segment.end_ last_segment = totalHeight.
Proof.
  destruct st as [segments cur]. unfold finish. simpl.
  destruct (Qgtb (Segment.height cur) 0); [right|left; reflexivity].
  eexists. split; [reflexivity|]. split; reflexivity.
Qed.


(** *** The segments of the sample pages *)

Ltac q_decide :=
  vm_compute; first [reflexivity | discriminate | intros; discriminate].

(** The one boundary of the page with the tall item. *)
Lemma boundaries_fall_between_elements_witness :
  let page := torn_group_page in
  exists e e',
    consecutive (collect_elements page) e e'
    /\ Segment.end_ (Segment.mk 0 3000 3000 true) = Element.bottom e
    /\ forall x, In x (collect_elements page) ->
         ~ ((Element.top x < 3000)%Q /\ (3000 < Element.bottom x)%Q).
Proof.
  intros page.
  destruct (boundaries_fall_between_elements maxHeight (header_offsetHeight page)
              (container_offsetHeight page) (collect_elements page)
              [] [] (Segment.mk 0 3000 3000 true) (Segment.mk 3000 4052 1050 false))
    as (e & e' & Hc & He & Hcut).
  - vm_compute. reflexivity.
  - exists e, e'. split; [exact Hc|]. split; [exact He|].
    apply Hcut. split; repeat constructor; q_decide.
Defined.

(** Against claim C2 as stated: the two items of the one word group lie
    in different segments. *)
Lemma word_group_torn_between_items :
  let page := torn_group_page in
  exists item1 item2 seg1 seg2,
    In item1 (collect_elements page) /\ In item2 (collect_elements page)
    /\ Element.type item1 = news_item /\ Element.type item2 = news_item
    /\ Element.parent item1 = Some 0%nat /\ Element.parent item2 = Some 0%nat
    /\ saveAsMultipleImages page = [seg1; seg2]
    /\ within item1 seg1 = true /\ within item1 seg2 = false
    /\ within item2 seg2 = true /\ within item2 seg1 = false.
Proof.
  exists (Element.mk news_item (Some 0%nat) (20 - 0) (3000 - 0) 2980),
         (Element.mk news_item (Some 0%nat) (3000 - 0) (4000 - 0) 1000),
         (Segment.mk 0 (3000 - 0) (3000 - 0 - 0) true),
         (Segment.mk (3000 - 0) 4052 (4050 - 0 - (3000 - 0)) false).
  repeat split; try (vm_compute; reflexivity).
  - right. right. left. vm_compute. reflexivity.
  - right. right. right. left. vm_compute. reflexivity.
Qed.

(** The page with the long error section is tiled by its segments. *)
Lemma segments_tile_document_witness :
  let page := long_error_page in
  saveAsMultipleImages page <> []
  /\ tiles 0 (saveAsMultipleImages page) 3450.
Proof.
  intros page.
  apply (segments_tile_document maxHeight 50 3450
           (Element.mk header None 0 50 50) (tl (collect_elements page))).
  - q_decide.
  - q_decide.
  - repeat constructor; q_decide.
  - q_decide.
Defined.

(** Against claim C4 as stated: the elements are in document order, the
    loop closes the first segment at the footer, the segment it opens
    there has height 0 and is dropped, and the last pixel of the
    container is in no segment. *)
Lemma flat_footer_leaves_a_gap :
  let page := flat_footer_page in
  layout_ordered (collect_elements page)
  /\ saveAsMultipleImages page = [Segment.mk 0 4000 4000 true]
  /\ container_offsetHeight page = 4001%Q
  /\ ~ tiles 0 (saveAsMultipleImages page) (container_offsetHeight page).
Proof.
  intros page. split; [|split; [|split]].
  - split; repeat constructor; q_decide.
  - vm_compute. reflexivity.
  - reflexivity.
  - vm_compute. intros (_ & _ & H). discriminate.
Qed.



(** ** Classes and links *)

Lemma fold_min_le (xs : list Z) (x : Z) :
  (fold_left Z.min xs x <= x)%Z
  /\ Forall (fun y => (fold_left Z.min xs x <= y)%Z) xs
  /\ (fold_left Z.min xs x = x \/ In (fold_left Z.min xs x) xs).
Proof.
  revert x. induction xs as [|y xs IH]; intros x; simpl.
  - split; [lia|]. split; [constructor|now left].
  - destruct (IH (Z.min x y)) as (Hle & Hall & Hin).
    split; [lia|]. split; [constructor; [lia|exact Hall]|].
    destruct Hin as [Heq|Hin]; [|now right; right].
    rewrite Heq. destruct (Z.min_spec x y) as [[_ ->]|[_ ->]]; auto.
Qed.




(** Claim C9, amended.  For an item without ranks the statistics section
    emits no rank badge at all, and the section of new titles emits a
    badge with the empty class and the text [?].  Neither computation
    raises, for any ranks. *)
Theorem empty_ranks_badge :
  (forall title_data,
      ranks title_data = [] ->
      stats_rank_badge title_data = Ok None
      /\ new_rank_badge title_data = Ok (EmptyString, "?"))
  /\ (forall title_data,
      (exists badge, stats_rank_badge title_data = Ok badge)
      /\ (exists badge, new_rank_badge title_data = Ok badge)).
Proof.
  split.
  - intros title_data Hempty. unfold stats_rank_badge, new_rank_badge.
    rewrite Hempty. split; reflexivity.
  - intros title_data. unfold stats_rank_badge, new_rank_badge.
    destruct (ranks title_data) as [|r rest]; simpl.
    + split; eexists; reflexivity.
    + split; [eexists; reflexivity|].
      destruct rest; simpl; eexists; reflexivity.
Qed.

(** The item without ranks. *)
Lemma empty_ranks_badge_witness :
  stats_rank_badge bare_item = Ok None
  /\ new_rank_badge bare_item = Ok (EmptyString, "?").
Proof. apply (proj1 empty_ranks_badge bare_item). reflexivity. Defined.

(** Against claim C9 as stated: the text of the badge is [?], in no case
    [unknown], and the statistics section has no badge. *)
Lemma empty_ranks_label_is_not_unknown :
  ranks bare_item = []
  /\ new_rank_badge bare_item = Ok (EmptyString, "?")
  /\ (forall class, new_rank_badge bare_item <> Ok (class, "unknown"))
  /\ stats_rank_badge bare_item = Ok None.
Proof.
  repeat split. intros class H. vm_compute in H. discriminate.
Qed.

Section MarkupFacts.

Variable html_escape : string -> string.

Lemma str_truthy_true (s : string) : s <> EmptyString -> str_truthy s = true.
Proof. destruct s; [contradiction|reflexivity]. Qed.


End MarkupFacts.


(** * Further properties *)

(** ** Deep merge: key order and repetition *)

Lemma has_key_set (k k' : string) (v : YamlData) (d : list (string * YamlData)) :
  has_key k (dict_set k' v d) = if String.eqb k k' then true else has_key k d.
Proof.
  unfold has_key. destruct (String.eqb k k') eqn:E.
  - apply String.eqb_eq in E. subst. now rewrite dict_get_set_eq.
  - rewrite dict_get_set_ne; [reflexivity|].
    intros ->. now rewrite String.eqb_refl in E.
Qed.

Lemma dict_keys_set (k : string) (v : YamlData) (d : list (string * YamlData)) :
  dict_keys (dict_set k v d)
  = if has_key k d then dict_keys d else dict_keys d ++ [k].
Proof.
  unfold has_key. induction d as [|[k0 v0] d IH]; simpl; [reflexivity|].
  destruct (String.eqb k k0) eqn:E; simpl; [reflexivity|].
  rewrite IH. now destruct (dict_get k d).
Qed.

Lemma merge_items_keys (patch target : list (string * YamlData)) :
  NoDup (dict_keys patch) ->
  dict_keys (merge_items patch target)
  = dict_keys target
    ++ List.filter (fun k => negb (has_key k target)) (dict_keys patch).
Proof.
  revert target. induction patch as [|[k v] patch IH]; intros target Hnd.
  - simpl. now rewrite app_nil_r.
  - rewrite merge_items_step. simpl in Hnd.
    apply NoDup_cons in Hnd as [Hk Hnd]. rewrite (IH _ Hnd), dict_keys_set.
    assert (Hsame :
      List.filter (fun k0 => negb (has_key k0 (dict_set k
                     (merged_value (dict_get k target) v) target)))
        (dict_keys patch)
      = List.filter (fun k0 => negb (has_key k0 target)) (dict_keys patch)).
    { apply List.filter_ext_in. intros k0 Hin. rewrite has_key_set.
      destruct (String.eqb k0 k) eqn:E; [|reflexivity].
      apply String.eqb_eq in E. subst k0. exfalso. apply Hk.
      now apply list_elem_of_In. }
    rewrite Hsame. simpl. destruct (has_key k target); simpl; [reflexivity|].
    now rewrite <- app_assoc.
Qed.

(** X1.  A merge keeps every key of the target at its position and puts
    the keys that only the patch has behind them, in the order of the
    patch. *)
Theorem merge_keeps_key_order (target patch : list (string * YamlData)) :
  NoDup (dict_keys patch) ->
  exists merged,
    deep_merge_inplace (YDict target) (YDict patch) = YDict merged
    /\ dict_keys merged
       = dict_keys target
         ++ List.filter (fun k => negb (has_key k target)) (dict_keys patch).
Proof.
  intros Hnd. exists (merge_items patch target).
  split; [apply merge_loop_eq|now apply merge_items_keys].
Qed.

Lemma merge_keeps_key_order_witness :
  exists merged,
    deep_merge_inplace (YDict nested_target)
      (YDict [("z", YInt 1); ("a", YInt 2); ("b", YNone)])
    = YDict merged
    /\ dict_keys merged = ["a"; "z"; "b"].
Proof.
  apply (merge_keeps_key_order nested_target
           [("z", YInt 1); ("a", YInt 2); ("b", YNone)]).
  simpl. compute_done.
Defined.

(** Induction on documents, with the hypothesis for every value held by
    a list or a dict. *)
Lemma YamlData_nested_ind (P : YamlData -> Prop) :
  P YNone -> (forall b, P (YBool b)) -> (forall n, P (YInt n)) ->
  (forall s, P (YStr s)) ->
  (forall items, Forall P items -> P (YList items)) ->
  (forall entries, Forall (fun kv => P (snd kv)) entries -> P (YDict entries)) ->
  forall v, P v.
Proof.
  intros HNone HBool HInt HStr HList HDict.
  fix IH 1. intros [|b|n|s|items|entries].
  - exact HNone.
  - apply HBool.
  - apply HInt.
  - apply HStr.
  - apply HList. induction items as [|v items IHitems]; constructor.
    + apply IH.
    + exact IHitems.
  - apply HDict. induction entries as [|[k v] entries IHentries]; constructor.
    + simpl. apply IH.
    + exact IHentries.
Qed.

Lemma keys_distinct_dict (entries : list (string * YamlData)) :
  keys_distinct (YDict entries)
  <-> NoDup (dict_keys entries) /\ Forall (fun kv => keys_distinct (snd kv)) entries.
Proof.
  simpl. apply and_iff_compat_l.
  induction entries as [|[k v] entries IH]; simpl.
  - split; auto.
  - rewrite IH. split.
    + intros [Hv Hall]. constructor; auto.
    + intros H. inversion H; subst. auto.
Qed.

Lemma dict_set_same (k : string) (v : YamlData) (d : list (string * YamlData)) :
  dict_get k d = Some v -> dict_set k v d = d.
Proof.
  induction d as [|[k0 v0] d IH]; simpl; [discriminate|].
  destruct (String.eqb k k0) eqn:E.
  - now intros [= ->].
  - intros H. now rewrite IH.
Qed.

Lemma dict_get_of_entry (k : string) (v : YamlData) (d : list (string * YamlData)) :
  NoDup (dict_keys d) -> In (k, v) d -> dict_get k d = Some v.
Proof.
  induction d as [|[k0 v0] d IH]; simpl; [intros _ []|].
  intros [Hk Hnd]%NoDup_cons [[= -> ->]|Hin].
  - now rewrite String.eqb_refl.
  - destruct (String.eqb k k0) eqn:E; [|now apply IH].
    apply String.eqb_eq in E. subst k0. exfalso. apply Hk.
    apply list_elem_of_In. apply (in_map fst) in Hin. exact Hin.
Qed.

(** A loop that stores at each key what the key already holds changes
    nothing. *)
Lemma merge_items_fixed (patch target : list (string * YamlData)) :
  (forall k v, In (k, v) patch ->
     exists held, dict_get k target = Some held
                  /\ merged_value (Some held) v = held) ->
  merge_items patch target = target.
Proof.
  induction patch as [|[k v] patch IH]; intros Hall; [reflexivity|].
  rewrite merge_items_step.
  destruct (Hall k v (or_introl eq_refl)) as (held & Hget & Hval).
  rewrite Hget, Hval, (dict_set_same _ _ _ Hget).
  apply IH. intros k' v' Hin. apply Hall. now right.
Qed.

Lemma merged_value_self (v : YamlData) :
  keys_distinct v -> merged_value (Some v) v = v.
Proof.
  induction v as [| | | | items _|entries IH] using YamlData_nested_ind;
    try reflexivity.
  intros [Hnd Hall]%keys_distinct_dict.
  unfold merged_value. rewrite merge_loop_eq. f_equal.
  apply merge_items_fixed. intros k v Hin. exists v.
  split; [now apply dict_get_of_entry|].
  rewrite List.Forall_forall in IH, Hall.
  apply (IH (k, v) Hin). apply (Hall (k, v) Hin).
Qed.

Lemma merge_twice (patch : YamlData) :
  keys_distinct patch ->
  forall target,
    deep_merge_inplace (deep_merge_inplace target patch) patch
    = deep_merge_inplace target patch.
Proof.
  induction patch as [| | | | items _|entries IH] using YamlData_nested_ind;
    intros Hwf target; try reflexivity.
  pose proof Hwf as [Hnd Hall]%keys_distinct_dict.
  assert (Hself : deep_merge_inplace (YDict entries) (YDict entries) = YDict entries)
    by exact (merged_value_self (YDict entries) Hwf).
  destruct target as [| | | | |tentries]; try exact Hself.
  rewrite !merge_loop_eq. f_equal.
  apply merge_items_fixed. intros k v Hin.
  pose proof (dict_get_of_entry _ _ _ Hnd Hin) as Hp.
  rewrite (merge_items_visited _ _ _ _ Hnd Hp).
  eexists. split; [reflexivity|].
  rewrite List.Forall_forall in IH, Hall.
  specialize (IH (k, v) Hin (Hall (k, v) Hin)). simpl in IH.
  pose proof (merged_value_self v (Hall (k, v) Hin)) as Hv.
  unfold merged_value at 2.
  destruct (dict_get k tentries) as [[| | | | |sub]|]; try exact Hv.
  destruct v as [| | | | |ventries]; try exact Hv.
  rewrite merge_loop_eq. unfold merged_value.
  rewrite <- merge_loop_eq. apply IH.
Qed.

Lemma merge_same_patch_fixed (target patch : YamlData) :
  keys_distinct patch ->
  deep_merge_inplace (deep_merge_inplace target patch) patch
  = deep_merge_inplace target patch.
Proof. intros Hwf. now apply merge_twice. Qed.

(** X2.  Merging the same patch a second time changes nothing: the
    document after two merges is the document after one. *)
Theorem merge_same_patch_twice (target patch : YamlData) :
  keys_distinct patch ->
  deep_merge_inplace (deep_merge_inplace target patch) patch
  = deep_merge_inplace target patch.
Proof. intros Hwf. now apply merge_twice. Qed.

Lemma merge_same_patch_twice_witness :
  let patch := YDict [("a", YDict [("b", YInt 99); ("d", YList [YInt 1])]);
                      ("e", YNone)] in
  deep_merge_inplace (deep_merge_inplace (YDict nested_target) patch) patch
  = deep_merge_inplace (YDict nested_target) patch.
Proof.
  intros patch. apply (merge_same_patch_twice (YDict nested_target) patch).
  simpl. repeat split; compute_done.
Defined.

(** ** The store: what a call touches, and calls in sequence *)



(** The world after [write_with_backup], whatever the destination held. *)
Lemma write_with_backup_files (path content : string) (w : World) :
  exists w',
    write_with_backup path content w = (Ok tt, w')
    /\ clock w' = clock w
    /\ files w'
       = <[path := content]>
           (match files w !! path with
            | Some old => <[backup_path path (clock w) := old]> (files w)
            | None => files w
            end).
Proof.
  destruct (files w !! path) as [old|] eqn:Eo.
  - rewrite (write_with_backup_existing _ _ _ _ Eo). eauto.
  - rewrite (write_with_backup_absent _ _ _ Eo). eauto.
Qed.

Section StoreMore.

Variable yaml_load : string -> option YamlData.
Variable yaml_dump : YamlData -> string.
Variable store : ConfigStore.

(** An operation either leaves the world as it is, or is one successful
    call of [write_with_backup] on its destination. *)
Lemma run_outcome (op : Operation) (w w' : World) (r : Result string) :
  run yaml_load yaml_dump store op w = (r, w') ->
  (w' = w /\ exists e, r = Raise e)
  \/ (r = Ok (destination store op)
      /\ exists content,
           write_with_backup (destination store op) content w = (Ok tt, w')).
Proof.
  destruct r as [result|e].
  - intros Hrun. right. destruct (run_success _ _ _ _ _ _ _ Hrun) as [-> Hw]. auto.
  - intros Hrun. left. split; [|eauto].
    destruct op as [patch| |]; simpl in Hrun.
    + unfold patch_config in Hrun. revert Hrun. run_monad.
      pose proof (load_config_yaml_pure yaml_load store w) as Hl.
      destruct (load_config_yaml yaml_load store w) as [[data|e0] w0];
        simpl in Hl; subst w0; [|now intros [= _ <-]].
      match goal with |- context [is_dict ?d] => destruct (is_dict d) end;
        [|now intros [= _ <-]].
      match goal with |- context [write_with_backup ?p ?c w] =>
        destruct (write_with_backup_writes p c w) as (w1 & -> & _) end.
      discriminate.
    + rewrite reset_config_cases in Hrun.
      destruct (first_existing (files w) (default_config_candidates store))
        as [p|]; [|now injection Hrun as _ <-].
      destruct (files w !! p) as [text|]; [|now injection Hrun as _ <-].
      destruct (str_truthy text); [|now injection Hrun as _ <-].
      destruct (yaml_load text) as [[]|]; try (now injection Hrun as _ <-).
      discriminate.
    + rewrite reset_words_cases in Hrun.
      destruct (first_existing (files w) (default_words_candidates store))
        as [p|]; [|now injection Hrun as _ <-].
      destruct (files w !! p) as [text|]; [|now injection Hrun as _ <-].
      discriminate.
Qed.

(** X3.  An operation that completes on a destination that does not
    exist yet makes no backup: after the parent directories, its one
    write creates the destination, which is the only new file. *)
Theorem first_write_makes_no_backup (op : Operation) (w w' : World) (result : string) :
  files w !! destination store op = None ->
  run yaml_load yaml_dump store op w = (Ok result, w') ->
  let dest := destination store op in
  exists content,
    log w' = log w ++ [MkdirParents dest; WriteText dest content]
    /\ files w' = <[dest := content]> (files w)
    /\ dom (files w') = dom (files w) ∪ {[dest]}.
Proof.
  intros Hnone Hrun dest.
  destruct (run_success _ _ _ _ _ _ _ Hrun) as [_ [content Hw]].
  rewrite (write_with_backup_absent _ _ _ Hnone) in Hw.
  injection Hw as <-. simpl. exists content.
  split; [reflexivity|]. split; [reflexivity|].
  rewrite dom_insert_L. apply set_eq. intros p.
  rewrite !elem_of_union, !elem_of_singleton. tauto.
Qed.

(** X4.  Whatever its outcome, an operation leaves every file other
    than its destination and the backup of the current second as it
    was, and keeps the clock; an operation that raises leaves the whole
    world as it was. *)
Theorem run_touches_two_paths_only (op : Operation) (w w' : World) (r : Result string) :
  run yaml_load yaml_dump store op w = (r, w') ->
  (forall p,
      p <> destination store op ->
      p <> backup_path (destination store op) (clock w) ->
      files w' !! p = files w !! p)
  /\ clock w' = clock w
  /\ (forall e, r = Raise e -> w' = w).
Proof.
  intros Hrun.
  destruct (run_outcome _ _ _ _ Hrun) as [[-> _]|[-> (content & Hw)]].
  - auto.
  - destruct (write_with_backup_files (destination store op) content w)
      as (w1 & Hw1 & Hclock & Hfiles).
    rewrite Hw in Hw1. injection Hw1 as <-.
    split; [|split; [exact Hclock|discriminate]].
    intros p Hdest Hbackup. rewrite Hfiles.
    rewrite lookup_insert_ne by congruence.
    destruct (files w !! destination store op); [|reflexivity].
    now rewrite lookup_insert_ne by congruence.
Qed.

End StoreMore.



Lemma first_write_makes_no_backup_witness :
  let w := unsaved_world in
  let w' := snd (run sample_load sample_dump CONFIG_STORE ResetWords w) in
  let dest := "config/frequency_words.txt" in
  exists content,
    log w' = log w ++ [MkdirParents dest; WriteText dest content]
    /\ files w' = <[dest := content]> (files w)
    /\ dom (files w') = dom (files w) ∪ {[dest]}.
Proof.
  intros w w' dest.
  apply (first_write_makes_no_backup sample_load sample_dump CONFIG_STORE
           ResetWords w w' dest).
  - vm_compute. reflexivity.
  - vm_compute. reflexivity.
Defined.

Lemma run_touches_two_paths_only_witness :
  let w := first_save_world in
  let w' := snd (run sample_load sample_dump CONFIG_STORE ResetWords w) in
  files w' !! "/app/config.default/frequency_words.txt" = Some "default words"
  /\ clock w' = clock w.
Proof.
  intros w w'.
  destruct (run_touches_two_paths_only sample_load sample_dump CONFIG_STORE
              ResetWords w w' (Ok "config/frequency_words.txt"))
    as (Hframe & Hclock & _).
  - vm_compute. reflexivity.
  - split; [|exact Hclock].
    rewrite Hframe; [vm_compute; reflexivity|discriminate|discriminate].
Defined.

Section StoreReads.

Variable yaml_load : string -> option YamlData.
Variable yaml_dump : YamlData -> string.
Variable store : ConfigStore.

Lemma load_text_result (text : string) (w : World) :
  load_text yaml_load text w = (load_result yaml_load text, w).
Proof. unfold load_text, load_result. now destruct (yaml_load text). Qed.

(** [load_config_yaml] by the text it ends up loading. *)
Lemma load_config_yaml_cases (w : World) :
  load_config_yaml yaml_load store w
  = let own := match files w !! config_path store with
               | Some text => text
               | None => EmptyString
               end in
    let text :=
      if str_truthy own then own
      else match first_existing (files w) (default_config_candidates store) with
           | Some p => match files w !! p with
                       | Some t => t
                       | None => EmptyString
                       end
           | None => EmptyString
           end in
    if str_truthy text then (load_result yaml_load text, w)
    else (Ok (YDict []), w).
Proof.
  unfold load_config_yaml, read_config_text, read_default_config_text. run_monad.
  case_bool_decide as He; simpl.
  - destruct He as [own Hown]. rewrite Hown. simpl.
    destruct (str_truthy own) eqn:Eown; simpl.
    + rewrite Eown. apply load_text_result.
    + rewrite read_default_text_first.
      destruct (first_existing (files w) (default_config_candidates store)) as [p|];
        [|reflexivity].
      destruct (files w !! p) as [t|]; [|reflexivity].
      destruct (str_truthy t) eqn:Et; rewrite ?Et; [apply load_text_result|].
      destruct t; [reflexivity|discriminate].
  - destruct (files w !! config_path store) as [own|] eqn:Hown;
      [exfalso; apply He; eauto|]. simpl.
    rewrite read_default_text_first.
    destruct (first_existing (files w) (default_config_candidates store)) as [p|];
      [|reflexivity].
    destruct (files w !! p) as [t|]; [|reflexivity].
    destruct (str_truthy t) eqn:Et; rewrite ?Et; [apply load_text_result|].
    destruct t; [reflexivity|discriminate].
Qed.

(** X6.  The configuration is loaded from its own file when that is not
    empty; otherwise from the first default that exists, when that is
    not empty; otherwise it is the empty dict.  A first default that is
    empty hides the candidates after it.  Loading writes nothing. *)
Theorem load_falls_back (w : World) :
  let own_missing :=
    files w !! config_path store = None
    \/ files w !! config_path store = Some EmptyString in
  (forall text,
      files w !! config_path store = Some text -> text <> EmptyString ->
      load_config_yaml yaml_load store w = (load_result yaml_load text, w))
  /\ (own_missing ->
      forall before p after text,
        default_config_candidates store = before ++ p :: after ->
        Forall (fun q => files w !! q = None) before ->
        files w !! p = Some text ->
        load_config_yaml yaml_load store w
        = if str_truthy text then (load_result yaml_load text, w)
          else (Ok (YDict []), w))
  /\ (own_missing ->
      Forall (fun q => files w !! q = None) (default_config_candidates store) ->
      load_config_yaml yaml_load store w = (Ok (YDict []), w)).
Proof.
  intros own_missing. rewrite load_config_yaml_cases. split; [|split].
  - intros text -> Htext. simpl. rewrite (str_truthy_true text Htext).
    now rewrite (str_truthy_true text Htext).
  - intros Hown before p after text Hc Hb Hp.
    rewrite Hc, (first_existing_intro _ _ _ _ _ Hb Hp), Hp.
    destruct Hown as [-> | ->]; reflexivity.
  - intros Hown Hnone. apply first_existing_None in Hnone. rewrite Hnone.
    destruct Hown as [-> | ->]; reflexivity.
Qed.

(** What [patch_config] does once the configuration is loaded. *)
Lemma patch_config_loaded (patch data : YamlData) (w : World) :
  fst (load_config_yaml yaml_load store w) = Ok data ->
  data = YNone \/ is_dict data = true ->
  patch_config yaml_load yaml_dump store patch w
  = (Ok (config_path store),
     snd (write_with_backup (config_path store)
            (yaml_dump (patched_document data patch)) w)).
Proof.
  intros Hload Hroot. unfold patch_config. run_monad.
  pose proof (load_config_yaml_pure yaml_load store w) as Hl.
  destruct (load_config_yaml yaml_load store w) as [r w0].
  simpl in Hl, Hload. subst w0 r.
  unfold patched_document.
  destruct Hroot as [-> | Hdict]; [|destruct data; try discriminate];
    destruct patch; simpl;
    match goal with |- context [write_with_backup ?p ?c w] =>
      destruct (write_with_backup_writes p c w) as (w1 & Hw & _) end;
    rewrite ?Hw; reflexivity.
Qed.

(** X7.  On a root that is a mapping or [None], [patch_config] writes
    the dump of the loaded document merged with the patch.  A patch
    that is not a mapping changes nothing in the document: the file is
    written all the same, with the dump of the document as loaded. *)
Theorem patch_writes_merged_dump (patch data : YamlData) (w : World) :
  fst (load_config_yaml yaml_load store w) = Ok data ->
  data = YNone \/ is_dict data = true ->
  exists w',
    patch_config yaml_load yaml_dump store patch w = (Ok (config_path store), w')
    /\ files w' !! config_path store
       = Some (yaml_dump (patched_document data patch))
    /\ (is_dict patch = false ->
        patched_document data patch
        = match data with YNone => YDict [] | _ => data end).
Proof.
  intros Hload Hroot. rewrite (patch_config_loaded patch data w Hload Hroot).
  destruct (write_with_backup_writes (config_path store)
              (yaml_dump (patched_document data patch)) w) as (w' & Hw & Hf).
  exists w'. rewrite Hw. split; [reflexivity|]. split; [exact Hf|].
  intros Hp. unfold patched_document. now destruct patch.
Qed.

(** X8.  After a reset of the configuration that completed, the file
    holds a text that loads to a mapping, so a patch in any later second
    completes: it writes the dump of that mapping merged with the patch
    and backs up the text of the reset. *)
Theorem patch_after_reset_completes (w w1 : World) (result ts : string)
    (patch : list (string * YamlData)) :
  reset_config_to_default yaml_load store w = (Ok result, w1) ->
  exists text parsed w2,
    yaml_load text = Some (YDict parsed)
    /\ files w1 !! config_path store = Some text
    /\ patch_config yaml_load yaml_dump store (YDict patch) (at_time ts w1)
       = (Ok (config_path store), w2)
    /\ files w2 !! config_path store
       = Some (yaml_dump (deep_merge_inplace (YDict parsed) (YDict patch)))
    /\ files w2 !! backup_path (config_path store) ts = Some text.
Proof.
  rewrite reset_config_cases.
  destruct (first_existing (files w) (default_config_candidates store)) as [p|];
    [|discriminate].
  destruct (files w !! p) as [text|]; [|discriminate].
  destruct (str_truthy text) eqn:Et; [|discriminate].
  destruct (yaml_load text) as [[| | | | |parsed]|] eqn:Eload; try discriminate.
  intros [= _ <-].
  destruct (write_with_backup_writes (config_path store) text w) as (w1 & Hw & Hf).
  rewrite Hw. simpl.
  assert (Hload : fst (load_config_yaml yaml_load store (at_time ts w1))
                  = Ok (YDict parsed)).
  { rewrite load_config_yaml_cases. simpl. rewrite Hf, Et. simpl.
    rewrite Et. simpl. unfold load_result. now rewrite Eload. }
  exists text, parsed.
  rewrite (patch_config_loaded (YDict patch) (YDict parsed) (at_time ts w1) Hload)
    by now right.
  assert (Hold : files (at_time ts w1) !! config_path store = Some text) by exact Hf.
  rewrite (write_with_backup_existing _ _ _ _ Hold). simpl.
  eexists. split; [exact Eload|]. split; [exact Hf|]. split; [reflexivity|].
  simpl. split; [apply lookup_insert_eq|].
  rewrite lookup_insert_ne by (intros E; symmetry in E; now apply backup_path_differs in E).
  apply lookup_insert_eq.
Qed.

End StoreReads.

Lemma load_falls_back_witness :
  load_config_yaml sample_load CONFIG_STORE default_only_world
  = (Ok (YDict [("interval", YInt 30)]), default_only_world).
Proof.
  apply (proj1 (proj2 (load_falls_back sample_load CONFIG_STORE default_only_world))
           (or_introl eq_refl) [] "/app/config.default/config.yaml"
           ["config/config.yaml"] "interval: 30").
  - reflexivity.
  - constructor.
  - vm_compute. reflexivity.
Defined.

Lemma patch_writes_merged_dump_witness :
  exists w',
    patch_config sample_load sample_dump CONFIG_STORE (YList [YInt 1]) configured_world
    = (Ok "config/config.yaml", w')
    /\ files w' !! "config/config.yaml" = Some "{interval: 30;}".
Proof.
  destruct (patch_writes_merged_dump sample_load sample_dump CONFIG_STORE
              (YList [YInt 1]) (YDict [("interval", YInt 30)]) configured_world)
    as (w' & Hrun & Hfile & _).
  - vm_compute. reflexivity.
  - right. reflexivity.
  - exists w'. split; [exact Hrun|exact Hfile].
Defined.

Lemma patch_after_reset_completes_witness :
  let w1 := snd (reset_config_to_default sample_load CONFIG_STORE bundled_default_world) in
  exists text parsed w2,
    sample_load text = Some (YDict parsed)
    /\ files w1 !! "config/config.yaml" = Some text
    /\ patch_config sample_load sample_dump CONFIG_STORE
         (YDict [("interval", YInt 60)]) (at_time "20250101-120500" w1)
       = (Ok "config/config.yaml", w2)
    /\ files w2 !! "config/config.yaml"
       = Some (sample_dump (deep_merge_inplace (YDict parsed)
                              (YDict [("interval", YInt 60)])))
    /\ files w2 !! "config/config.yaml.bak.20250101-120500" = Some text.
Proof.
  intros w1.
  apply (patch_after_reset_completes sample_load sample_dump CONFIG_STORE
           bundled_default_world w1 "config/config.yaml" "20250101-120500"
           [("interval", YInt 60)]).
  vm_compute. reflexivity.
Defined.

(** ** Reading the configuration as plain data *)






Section PlainReads.

Variable yaml_load : string -> option YamlData.
Variable store : ConfigStore.


End PlainReads.


(** ** The server: bounded paging, fixed clauses, redaction *)

Section ServerFacts.

Variable py_int : string -> option Z.
Variable strip : string -> string.

(** X10.  [_safe_int] answers the default, as given, when there is no
    value or the value is not an integer; otherwise it answers the
    parsed integer brought into the range: the integer itself inside
    the range, the nearer bound outside. *)
Theorem safe_int_clamps (value : option string) (default min_value max_value : Z) :
  (min_value <= max_value)%Z ->
  let result := _safe_int py_int value default min_value max_value in
  (value = None \/ (exists text, value = Some text /\ py_int text = None) ->
   result = default)
  /\ (forall text parsed,
        value = Some text -> py_int text = Some parsed ->
        (min_value <= result <= max_value)%Z
        /\ ((min_value <= parsed <= max_value)%Z -> result = parsed)
        /\ ((parsed < min_value)%Z -> result = min_value)
        /\ ((max_value < parsed)%Z -> result = max_value)).
Proof.
  intros Hrange result. subst result. unfold _safe_int. split.
  - intros [-> | (text & -> & ->)]; reflexivity.
  - intros text parsed -> ->. repeat split; lia.
Qed.

Lemma sort_map_get_fixed (sort : string) :
  In (sort_map_get sort)
    ["n.last_crawl_time DESC"; "n.rank ASC"; "n.crawl_count DESC"].
Proof.
  unfold sort_map_get.
  destruct (String.eqb sort "last_crawl_time_desc"); [now left|].
  destruct (String.eqb sort "rank_asc"); [now right; left|].
  destruct (String.eqb sort "crawl_count_desc"); [now right; right; left|now left].
Qed.

Lemma safe_int_between (value : option string) (default min_value max_value : Z) :
  (min_value <= default <= max_value)%Z ->
  (min_value <= _safe_int py_int value default min_value max_value <= max_value)%Z.
Proof.
  intros Hd. unfold _safe_int.
  destruct value as [text|]; [|exact Hd].
  destruct (py_int text); [lia|exact Hd].
Qed.

(** X11.  Whatever the request holds, [search_news] pages within fixed
    bounds (1 to 200 rows, offset 0 to 1000000), orders by one of three
    fixed clauses, and builds its filter from fixed text only: the
    filter is one of four clauses, the text of the request goes into the
    parameters, and there are as many parameters as placeholders. *)
Theorem search_plan_is_fixed (q platform_id limit offset sort : option string) :
  let plan := search_news_plan py_int strip q platform_id limit offset sort in
  (1 <= limit_i plan <= 200)%Z
  /\ (0 <= offset_i plan <= 1000000)%Z
  /\ In (order_sql plan)
       ["n.last_crawl_time DESC"; "n.rank ASC"; "n.crawl_count DESC"]
  /\ In (where_sql plan)
       [EmptyString; "WHERE n.platform_id = ?"; "WHERE n.title LIKE ?";
        "WHERE n.platform_id = ? AND n.title LIKE ?"]
  /\ placeholders (where_sql plan) = length (params plan)
  /\ length (page_params plan) = (placeholders (where_sql plan) + 2)%nat
  /\ params plan
     = (if str_truthy (plan_platform_id plan)
        then [PText (plan_platform_id plan)] else [])
       ++ (if str_truthy (plan_query plan)
           then [PText ("%" +:+ plan_query plan +:+ "%")] else []).
Proof.
  intros plan. subst plan. unfold search_news_plan, page_params.
  pose proof (safe_int_between limit 50 1 200 ltac:(lia)) as Hlimit.
  pose proof (safe_int_between offset 0 0 1000000 ltac:(lia)) as Hoffset.
  destruct (str_truthy (_safe_str strip platform_id)) eqn:Ep;
    destruct (str_truthy (_safe_str strip q)) eqn:Eq; simpl;
    rewrite ?Ep, ?Eq; simpl;
    (split; [exact Hlimit|]); (split; [exact Hoffset|]);
    (split; [apply sort_map_get_fixed|]); repeat split; auto 6.
Qed.

Lemma dict_keys_set_present (k : string) (v v' : YamlData)
    (d : list (string * YamlData)) :
  dict_get k d = Some v' -> dict_keys (dict_set k v d) = dict_keys d.
Proof.
  intros H. rewrite dict_keys_set. unfold has_key. now rewrite H.
Qed.

Lemma redact_mapping_keys (mapping : list (string * YamlData)) (keys : list string) :
  dict_keys (_redact_mapping strip mapping keys) = dict_keys mapping.
Proof.
  revert mapping. induction keys as [|k keys IH]; intros mapping; [reflexivity|].
  simpl. rewrite IH.
  destruct (dict_get k mapping) as [value|] eqn:E; [|reflexivity].
  now apply (dict_keys_set_present k _ value).
Qed.

Lemma redact_mapping_other (mapping : list (string * YamlData)) (keys : list string)
    (k : string) :
  k ∉ keys ->
  dict_get k (_redact_mapping strip mapping keys) = dict_get k mapping.
Proof.
  revert mapping. induction keys as [|k0 keys IH]; intros mapping Hk; [reflexivity|].
  apply not_elem_of_cons in Hk as [Hne Hk]. simpl. rewrite (IH _ Hk).
  destruct (dict_get k0 mapping); [|reflexivity].
  now apply dict_get_set_ne.
Qed.

Lemma redact_mapping_listed (mapping : list (string * YamlData)) (keys : list string)
    (k : string) (value : YamlData) :
  NoDup keys -> k ∈ keys -> dict_get k mapping = Some value ->
  dict_get k (_redact_mapping strip mapping keys)
  = Some (_redact_value strip value).
Proof.
  revert mapping. induction keys as [|k0 keys IH]; intros mapping Hnd Hin Hget.
  - now apply elem_of_nil in Hin.
  - apply NoDup_cons in Hnd as [Hk0 Hnd]. simpl.
    apply elem_of_cons in Hin as [->|Hin].
    + rewrite Hget, (redact_mapping_other _ _ _ Hk0). apply dict_get_set_eq.
    + assert (Hne : k <> k0) by (intros ->; contradiction).
      apply (IH _ Hnd Hin).
      destruct (dict_get k0 mapping); [|exact Hget].
      now rewrite dict_get_set_ne.
Qed.

(** X12.  [_redact_mapping] keeps the keys of the mapping and their
    order, and the value of every key that is not listed.  Under a
    listed key, a string that is not blank becomes the fixed mask and a
    non-empty list becomes as many masks as it had items, so nothing of
    either is left; [None], a blank string and an empty list stay. *)
Theorem redaction_masks_listed_keys (mapping : list (string * YamlData))
    (keys : list string) :
  NoDup keys ->
  let redacted := _redact_mapping strip mapping keys in
  dict_keys redacted = dict_keys mapping
  /\ (forall k, k ∉ keys -> dict_get k redacted = dict_get k mapping)
  /\ (forall k text,
        k ∈ keys -> dict_get k mapping = Some (YStr text) ->
        strip text <> EmptyString ->
        dict_get k redacted = Some (YStr redacted_text))
  /\ (forall k item items,
        k ∈ keys -> dict_get k mapping = Some (YList (item :: items)) ->
        dict_get k redacted
        = Some (YList (repeat (YStr redacted_text) (S (length items)))))
  /\ (forall k value,
        k ∈ keys -> dict_get k mapping = Some value ->
        value = YNone \/ value = YList []
        \/ (exists text, value = YStr text /\ strip text = EmptyString) ->
        dict_get k redacted = Some value).
Proof.
  intros Hnd redacted. subst redacted.
  split; [apply redact_mapping_keys|].
  split; [intros k Hk; now apply redact_mapping_other|].
  split; [|split].
  - intros k text Hin Hget Hblank.
    rewrite (redact_mapping_listed _ _ _ _ Hnd Hin Hget). simpl.
    now rewrite (str_truthy_true _ Hblank).
  - intros k item items Hin Hget.
    now rewrite (redact_mapping_listed _ _ _ _ Hnd Hin Hget).
  - intros k value Hin Hget Hcase.
    rewrite (redact_mapping_listed _ _ _ _ Hnd Hin Hget). f_equal.
    destruct Hcase as [-> | [-> | (text & -> & Hblank)]]; try reflexivity.
    simpl. now rewrite Hblank.
Qed.

End ServerFacts.

Lemma safe_int_clamps_witness :
  _safe_int sample_int (Some "5000") 50 1 200 = 200%Z
  /\ _safe_int sample_int (Some "all") 50 1 200 = 50%Z.
Proof.
  split.
  - apply (proj2 (safe_int_clamps sample_int (Some "5000") 50 1 200 ltac:(lia))
             "5000" 5000%Z); [reflexivity|reflexivity|lia].
  - apply (proj1 (safe_int_clamps sample_int (Some "all") 50 1 200 ltac:(lia))).
    right. exists "all". split; reflexivity.
Defined.

Lemma redaction_masks_listed_keys_witness :
  let redacted := _redact_mapping sample_strip sample_env ["ADMIN_TOKEN"; "EMAIL_TO"] in
  dict_keys redacted = ["TZ"; "ADMIN_TOKEN"; "EMAIL_TO"]
  /\ dict_get "TZ" redacted = Some (YStr "Asia/Shanghai")
  /\ dict_get "ADMIN_TOKEN" redacted = Some (YStr "***redacted***")
  /\ dict_get "EMAIL_TO" redacted
     = Some (YList [YStr "***redacted***"; YStr "***redacted***"]).
Proof.
  intros redacted.
  destruct (redaction_masks_listed_keys sample_strip sample_env
              ["ADMIN_TOKEN"; "EMAIL_TO"] ltac:(compute_done))
    as (Hkeys & Hother & Hstr & Hlist & _).
  split; [exact Hkeys|]. split; [|split].
  - rewrite Hother; [reflexivity|compute_done].
  - apply (Hstr "ADMIN_TOKEN" "s3cret"); [compute_done|reflexivity|discriminate].
  - apply (Hlist "EMAIL_TO" (YStr "a@example.org") [YStr "b@example.org"]);
      [compute_done|reflexivity].
Defined.

(** ** The report: time labels and rank texts *)

Lemma chars_append (a b : string) : chars (a +:+ b) = chars a ++ chars b.
Proof. induction a as [|c a IH]; simpl; [reflexivity|now rewrite IH]. Qed.

Lemma replace_from_cons (skip : nat) (old new : string) (c : ascii) (s : string) :
  replace_from skip old new (String c s)
  = match skip with
    | S skip' => replace_from skip' old new s
    | O =>
        if String.prefix old (String c s)
        then new +:+ replace_from (String.length old - 1) old new s
        else String c (replace_from 0 old new s)
    end.
Proof. reflexivity. Qed.

(** A replacement puts nothing in the result but characters of the
    text and of the replacing string. *)
Lemma replace_from_chars (old new s : string) (skip : nat) (x : ascii) :
  In x (chars (replace_from skip old new s)) ->
  In x (chars s) \/ In x (chars new).
Proof.
  revert skip. induction s as [|c s IH]; intros skip; [intros []|].
  rewrite replace_from_cons. destruct skip as [|skip].
  - destruct (String.prefix old (String c s)).
    + rewrite chars_append. intros [Hnew|Hrest]%in_app_or; [now right|].
      destruct (IH _ Hrest); [left; now right|now right].
    + simpl. intros [->|Hrest]; [now left; left|].
      destruct (IH _ Hrest); [left; now right|now right].
  - intros Hrest. destruct (IH _ Hrest); [left; now right|now right].
Qed.

Lemma prefix_char (c d : ascii) (s : string) :
  String.prefix (String c EmptyString) (String d s)
  = if ascii_dec c d then true else false.
Proof. simpl. destruct (ascii_dec c d); [now destruct s|reflexivity]. Qed.

(** Replacing a character by nothing leaves no such character. *)
Lemma remove_char_gone (c : ascii) (s : string) :
  ~ In c (chars (py_replace (String c EmptyString) EmptyString s)).
Proof.
  unfold py_replace. induction s as [|d s IH]; [simpl; tauto|].
  rewrite replace_from_cons, prefix_char.
  destruct (ascii_dec c d) as [->|Hne].
  - exact IH.
  - simpl. intros [->|Hin]; [now apply Hne|now apply IH].
Qed.

Lemma tilde_prefix (c : ascii) (s : string) :
  String.prefix " ~ " (String c s) = true -> In "~"%char (chars s).
Proof.
  intros H. apply String.prefix_correct in H.
  destruct s as [|c2 s]; [discriminate|].
  simpl in H. injection H as _ H _. left. exact H.
Qed.

(** X13.  The time label shown for an item holds no square bracket, and
    each of its characters is a character of the label it was made
    from. *)
Theorem simplified_time_has_no_bracket (time_display : string) :
  ~ In "["%char (chars (simplified_time time_display))
  /\ ~ In "]"%char (chars (simplified_time time_display))
  /\ forall x, In x (chars (simplified_time time_display)) ->
       In x (chars time_display).
Proof.
  unfold simplified_time.
  set (step1 := py_replace " ~ " "~" time_display).
  set (step2 := py_replace "[" EmptyString step1).
  assert (Hsub3 : forall x, In x (chars (py_replace "]" EmptyString step2)) ->
                            In x (chars step2)).
  { intros x Hx. destruct (replace_from_chars _ _ _ _ _ Hx) as [H|[]]. exact H. }
  assert (Hsub2 : forall x, In x (chars step2) -> In x (chars step1)).
  { intros x Hx. destruct (replace_from_chars _ _ _ _ _ Hx) as [H|[]]. exact H. }
  split; [|split].
  - intros Hin. apply Hsub3 in Hin. now apply (remove_char_gone "["%char step1).
  - apply (remove_char_gone "]"%char step2).
  - intros x Hx. apply Hsub3, Hsub2 in Hx. subst step1. clear -Hx.
    unfold py_replace in Hx. revert Hx. generalize 0%nat.
    induction time_display as [|c s IH]; intros skip; [intros []|].
    rewrite replace_from_cons.
    destruct skip as [|skip]; [|intros Hrest; right; now apply (IH skip)].
    destruct (String.prefix " ~ " (String c s)) eqn:Ep.
    + rewrite chars_append. simpl.
      intros [<-|Hrest]; [|right; now apply (IH _ Hrest)].
      right. now apply (tilde_prefix c).
    + simpl. intros [<-|Hrest]; [now left|right; now apply (IH _ Hrest)].
Qed.

Lemma fold_max_ge (xs : list Z) (x : Z) : (x <= fold_left Z.max xs x)%Z.
Proof.
  revert x. induction xs as [|y xs IH]; intros x; simpl; [lia|].
  specialize (IH (Z.max x y)). lia.
Qed.

Lemma range_text_longer (lo hi : Z) :
  py_str lo <> py_str lo +:+ "-" +:+ py_str hi.
Proof.
  intros H. symmetry in H. apply append_same_left in H. discriminate.
Qed.

(** X14.  For an item with ranks, the two sections of the report give
    the same rank class, and the least rank is at most the greatest.
    The texts agree when there is one rank or the ranks differ; for
    several equal ranks the statistics section shows the rank once and
    the section of new titles shows it as a range. *)
Theorem rank_badges_agree (title_data : TitleData) :
  ranks title_data <> [] ->
  exists lo hi class stats_text new_text,
    py_min (ranks title_data) = Ok lo
    /\ py_max (ranks title_data) = Ok hi
    /\ (lo <= hi)%Z
    /\ stats_rank_badge title_data = Ok (Some (class, stats_text))
    /\ new_rank_badge title_data = Ok (class, new_text)
    /\ (stats_text = new_text
        <-> length (ranks title_data) = 1%nat \/ lo <> hi)
    /\ (lo = hi -> length (ranks title_data) <> 1%nat ->
        stats_text = py_str lo
        /\ new_text = py_str lo +:+ "-" +:+ py_str lo).
Proof.
  intros Hne. unfold stats_rank_badge, new_rank_badge.
  destruct (ranks title_data) as [|r rest] eqn:Er; [contradiction|].
  set (lo := fold_left Z.min rest r). set (hi := fold_left Z.max rest r).
  assert (Hle : (lo <= hi)%Z).
  { pose proof (fold_min_le rest r) as [Hmin _].
    pose proof (fold_max_ge rest r) as Hmax.
    subst lo hi. lia. }
  clear Hne.
  exists lo, hi, (rank_class lo (get_rank_threshold title_data)).
  destruct rest as [|r2 rest].
  - exists (py_str r), (py_str r). simpl in *. subst lo hi.
    rewrite Z.eqb_refl.
    split; [reflexivity|]. split; [reflexivity|]. split; [lia|].
    split; [reflexivity|]. split; [reflexivity|]. split.
    + split; [now left|reflexivity].
    + intros _ Hlen. now contradiction Hlen.
  - change (py_min (r :: r2 :: rest)) with (Ok (A:=Z) lo).
    change (py_max (r :: r2 :: rest)) with (Ok (A:=Z) hi).
    change (length (r :: r2 :: rest) =? 1)%nat with false.
    cbn [list_truthy mbind Result_bind mret Result_ret].
    destruct (Z.eqb_spec lo hi) as [Heq|Hneq].
    + exists (py_str lo), (py_str lo +:+ "-" +:+ py_str hi).
      split; [reflexivity|]. split; [reflexivity|]. split; [exact Hle|].
      split; [reflexivity|]. split; [reflexivity|]. split.
      * split.
        -- intros Htext. now apply range_text_longer in Htext.
        -- intros [Hlen|Hdiff]; [discriminate|contradiction].
      * intros _ _. split; [reflexivity|now rewrite <- Heq].
    + exists (py_str lo +:+ "-" +:+ py_str hi), (py_str lo +:+ "-" +:+ py_str hi).
      split; [reflexivity|]. split; [reflexivity|]. split; [exact Hle|].
      split; [reflexivity|]. split; [reflexivity|]. split.
      * split; [now right|reflexivity].
      * intros Hsame. contradiction.
Qed.

Lemma rank_badges_agree_witness :
  stats_rank_badge steady_item = Ok (Some ("top", "2"))
  /\ new_rank_badge steady_item = Ok ("top", "2-2").
Proof.
  destruct (rank_badges_agree steady_item)
    as (lo & hi & class & stats_text & new_text & Hlo & Hhi & _ & Hs & Hn & _);
    [discriminate|].
  split; reflexivity.
Defined.

(** ** The segments: count, header flag, pages that fit *)

Lemma finish_length (totalHeight : Q) (st : WalkState) :
  (length (finish totalHeight st) <= S (length (fst st)))%nat.
Proof.
  destruct (finish_cases totalHeight st) as [->|(last_segment & -> & _)].
  - lia.
  - rewrite length_app. simpl. lia.
Qed.

Lemma count_invariant_step (maxHeight headerHeight : Q)
    (visited : list Element.t) (previous element : Element.t) (st : WalkState) :
  count_invariant headerHeight visited previous st ->
  count_invariant headerHeight (visited ++ [previous]) element
    (walk_step maxHeight headerHeight previous element st).
Proof.
  intros [Hcount Hfirst]. destruct st as [segments cur]. simpl in Hcount, Hfirst.
  unfold count_invariant.
  split; [|intros Hnil; now apply app_eq_nil in Hnil as [_ ?]].
  rewrite length_app.
  destruct (walk_step_cases maxHeight headerHeight previous element segments cur)
    as [(_ & Hmore & ->)|(_ & ->)]; simpl.
  - rewrite length_app. simpl.
    destruct visited as [|v visited].
    + rewrite (Hfirst eq_refl) in Hmore. now apply Qlt_irrefl in Hmore.
    + simpl in *. lia.
  - lia.
Qed.

(** X15.  There are never more segments than elements after the header,
    one segment at least being allowed: the loop pushes no segment at
    its first element and at most one at each later element. *)
Theorem segments_at_most_elements (maxHeight headerHeight totalHeight : Q)
    (elements : list Element.t) :
  (length (compute_segments maxHeight headerHeight totalHeight elements)
   <= Nat.max 1 (Nat.pred (length elements)))%nat.
Proof.
  unfold compute_segments.
  pose proof (finish_length totalHeight (run_walk maxHeight headerHeight elements))
    as Hfin.
  destruct elements as [|first rest]; [simpl in *; lia|].
  unfold run_walk in *.
  destruct (walk_invariant maxHeight headerHeight (count_invariant headerHeight)
              (count_invariant_step maxHeight headerHeight)
              rest [] first ([], Segment.mk 0 0 headerHeight true))
    as (visited' & final & Heq & Hcount & _).
  - split; [simpl; lia|reflexivity].
  - simpl in Heq. apply (f_equal (@length _)) in Heq.
    rewrite length_app in Heq. simpl in Heq. simpl length. lia.
Qed.

Lemma flag_invariant_step (maxHeight headerHeight : Q)
    (previous element : Element.t) (st : WalkState) :
  flag_invariant st ->
  flag_invariant (walk_step maxHeight headerHeight previous element st).
Proof.
  unfold flag_invariant. intros Hflags. destruct st as [segments cur].
  simpl in Hflags. rewrite map_app in Hflags. simpl in Hflags.
  destruct (walk_step_cases maxHeight headerHeight previous element segments cur)
    as [(_ & _ & ->)|(_ & ->)]; simpl.
  - rewrite !map_app, length_app. simpl. rewrite Hflags.
    replace (length segments + 1)%nat with (S (length segments)) by lia.
    simpl. f_equal. symmetry. apply repeat_cons.
  - rewrite map_app. simpl. exact Hflags.
Qed.

Lemma run_walk_flags (maxHeight headerHeight : Q) (elements : list Element.t) :
  flag_invariant (run_walk maxHeight headerHeight elements).
Proof.
  unfold run_walk. destruct elements as [|first rest]; [reflexivity|].
  destruct (walk_invariant maxHeight headerHeight (fun _ _ st => flag_invariant st)
              (fun _ previous element st =>
                 flag_invariant_step maxHeight headerHeight previous element st)
              rest [] first ([], Segment.mk 0 0 headerHeight true))
    as (_ & _ & _ & Hflags); [reflexivity|exact Hflags].
Qed.

(** X16.  The header is part of the first segment and of no other: the
    flag [includeHeader] is set on the first emitted segment and clear
    on all that follow. *)
Theorem header_in_first_segment_only (maxHeight headerHeight totalHeight : Q)
    (elements : list Element.t) :
  let segments := compute_segments maxHeight headerHeight totalHeight elements in
  segments = []
  \/ exists others,
       map Segment.includeHeader segments = true :: repeat false others.
Proof.
  intros segments. subst segments. unfold compute_segments.
  pose proof (run_walk_flags maxHeight headerHeight elements) as Hflags.
  unfold flag_invariant in Hflags.
  destruct (run_walk maxHeight headerHeight elements) as [pushed cur].
  unfold finish. simpl in *.
  destruct (Qgtb (Segment.height cur) 0).
  - right. exists (length pushed).
    rewrite map_app in *. exact Hflags.
  - destruct pushed as [|seg pushed]; [now left|right].
    exists (length pushed). rewrite map_app in Hflags. simpl in Hflags.
    rewrite repeat_cons in Hflags. injection Hflags as Hfirst Hrest.
    apply app_inj_tail in Hrest as [Hrest _].
    simpl. now rewrite Hfirst, Hrest.
Qed.

(** While every bottom is within the budget the loop pushes nothing. *)
Lemma walk_within_budget (maxHeight headerHeight : Q) (rest : list Element.t) :
  forall (previous : Element.t) (cur : Segment.t),
    Segment.start cur = 0%Q ->
    (0 < Segment.height cur)%Q ->
    Forall (fun e => (0 < Element.bottom e)%Q /\ (Element.bottom e <= maxHeight)%Q)
      rest ->
    exists cur',
      walk maxHeight headerHeight previous rest ([], cur) = ([], cur')
      /\ Segment.start cur' = 0%Q
      /\ Segment.includeHeader cur' = Segment.includeHeader cur
      /\ (0 < Segment.height cur')%Q.
Proof.
  induction rest as [|e rest IH]; intros previous cur Hstart Hpos Hall.
  - exists cur. auto.
  - inversion Hall as [|? ? [He0 He] Hrest]; subst.
    change (walk maxHeight headerHeight previous (e :: rest) ([], cur))
      with (walk maxHeight headerHeight e rest
              (walk_step maxHeight headerHeight previous e ([], cur))).
    destruct (walk_step_cases maxHeight headerHeight previous e [] cur)
      as [(Hover & _ & _)|(_ & ->)].
    + rewrite Hstart in Hover. lra.
    + destruct (IH e (Segment.mk (Segment.start cur) (Element.bottom e)
                        (Element.bottom e - Segment.start cur)
                        (Segment.includeHeader cur)))
        as (cur' & Hwalk & Hs & Hi & Hh); simpl; auto.
      * rewrite Hstart. lra.
      * exists cur'. auto.
Qed.

(** X17.  A page whose elements all end within the budget is exported
    as one segment, from 0 to the height of the container, with the
    header. *)
Theorem page_within_budget_is_one_segment (maxHeight headerHeight totalHeight : Q)
    (first : Element.t) (rest : list Element.t) :
  (0 < headerHeight)%Q ->
  Forall (fun e => (0 < Element.bottom e)%Q /\ (Element.bottom e <= maxHeight)%Q)
    rest ->
  exists height,
    compute_segments maxHeight headerHeight totalHeight (first :: rest)
    = [Segment.mk 0 totalHeight height true].
Proof.
  intros Hh Hall. unfold compute_segments, run_walk.
  destruct (walk_within_budget maxHeight headerHeight rest first
              (Segment.mk 0 0 headerHeight true) eq_refl Hh Hall)
    as (cur' & -> & Hs & Hi & Hpos).
  unfold finish. rewrite (proj2 (Qgtb_true _ _) Hpos). simpl in Hi.
  exists (Segment.height cur'). simpl. now rewrite Hs, Hi.
Qed.

Lemma run_walk_budget (maxHeight headerHeight : Q) (first : Element.t)
    (rest : list Element.t) :
  (0 <= headerHeight)%Q ->
  (Element.bottom first == headerHeight)%Q ->
  forall seg,
    In seg (fst (run_walk maxHeight headerHeight (first :: rest))) ->
    within_budget maxHeight headerHeight (first :: rest) seg.
Proof.
  intros Hh Hfirst. unfold run_walk.
  destruct (walk_invariant maxHeight headerHeight
              (budget_invariant maxHeight headerHeight)
              (fun visited previous element st =>
                 budget_invariant_step maxHeight headerHeight visited previous
                   element st Hh)
              rest [] first ([], Segment.mk 0 0 headerHeight true))
    as (visited' & final & Heq & _ & Hsegs & _).
  - split; [simpl; lra|]. split; [intros seg []|]. left. simpl. lra.
  - simpl in Heq. rewrite Heq. exact Hsegs.
Qed.

(** X18.  When no element reaches further below the one before it than
    the budget less the height of the header, every segment pushed by
    the loop is within the budget. *)
Theorem small_elements_keep_the_budget (maxHeight headerHeight : Q)
    (first : Element.t) (rest : list Element.t) :
  (0 <= headerHeight)%Q ->
  (Element.bottom first == headerHeight)%Q ->
  (forall a b, consecutive (first :: rest) a b ->
     (Element.bottom b - Element.bottom a <= maxHeight - headerHeight)%Q) ->
  forall seg,
    In seg (fst (run_walk maxHeight headerHeight (first :: rest))) ->
    (Segment.end_ seg - Segment.start seg <= maxHeight)%Q.
Proof.
  intros Hh Hfirst Hsmall seg Hin.
  destruct (run_walk_budget maxHeight headerHeight first rest Hh Hfirst seg Hin)
    as [Hle|(a & b & Hc & Hend & Hbefore)]; [exact Hle|].
  specialize (Hsmall a b Hc). rewrite Hend. lra.
Qed.

Lemma page_within_budget_is_one_segment_witness :
  exists height,
    saveAsMultipleImages short_page = [Segment.mk 0 262 height true].
Proof.
  apply (page_within_budget_is_one_segment maxHeight 50 262
           (Element.mk header None 0 50 50) (tl (collect_elements short_page))).
  - q_decide.
  - repeat constructor; q_decide.
Defined.

Ltac next_pair Heq before :=
  destruct before as [|? before]; simpl in Heq;
  [ inversion Heq; subst; q_decide
  | let Hhd := fresh "Hhd" in
    let Htl := fresh "Htl" in
    inversion Heq as [[Hhd Htl]]; clear Heq Hhd; rename Htl into Heq ].

Lemma small_elements_keep_the_budget_witness :
  (Segment.end_ (Segment.mk 0 (3000 - 0) (3000 - 0 - 0) true)
   - Segment.start (Segment.mk 0 (3000 - 0) (3000 - 0 - 0) true) <= maxHeight)%Q.
Proof.
  apply (small_elements_keep_the_budget maxHeight 10
           (Element.mk header None 0 10 10) (tl (collect_elements torn_group_page))).
  - q_decide.
  - q_decide.
  - intros a b (before & after & Heq).
    vm_compute in Heq.
    next_pair Heq before. next_pair Heq before. next_pair Heq before.
    next_pair Heq before.
    destruct before as [|? before]; simpl in Heq; [discriminate|].
    inversion Heq as [[Hlast Hnil]]. destruct before; discriminate.
  - vm_compute. left. reflexivity.
Defined.

(** ** The segments of a page *)

(** X19.  For every page with a header of non-negative height, and
    whatever the geometry of the other elements, the segments pushed by
    the loop tile a range that starts at 0: each one is non-empty and
    starts where the one before ends.  The segment pushed after the
    loop, if any, starts where they end and ends at the height of the
    container. *)
Theorem page_segments_are_contiguous (page : Page) :
  (0 <= header_offsetHeight page)%Q ->
  exists pushed boundary,
    tiles 0 pushed boundary
    /\ (saveAsMultipleImages page = pushed
        \/ exists last_segment,
             saveAsMultipleImages page = pushed ++ [last_segment]
             /\ Segment.start last_segment = boundary
             /\ Segment.end_ last_segment = container_offsetHeight page).
Proof.
  intros Hh. unfold saveAsMultipleImages, compute_segments.
  set (first := Element.mk header None 0 (header_offsetHeight page)
                  (header_offsetHeight page)).
  change (collect_elements page) with (first :: tl (collect_elements page)).
  destruct (run_walk_tiling maxHeight (header_offsetHeight page) first
              (tl (collect_elements page)) Hh)
    as (final & _ & _ & Htiles); [reflexivity|].
  set (st := run_walk maxHeight (header_offsetHeight page)
               (first :: tl (collect_elements page))) in *.
  exists (fst st), (Segment.start (snd st)). split; [exact Htiles|].
  destruct (finish_cases (container_offsetHeight page) st)
    as [->|(last_segment & -> & Hstart & Hend)]; [now left|right].
  exists last_segment. auto.
Qed.

Lemma page_segments_are_contiguous_witness :
  exists pushed boundary,
    tiles 0 pushed boundary
    /\ (saveAsMultipleImages flat_footer_page = pushed
        \/ exists last_segment,
             saveAsMultipleImages flat_footer_page = pushed ++ [last_segment]
             /\ Segment.start last_segment = boundary
             /\ Segment.end_ last_segment = container_offsetHeight flat_footer_page).
Proof.
  apply (page_segments_are_contiguous flat_footer_page). q_decide.
Defined.



(** ** Writing, reading back, and patching again *)



Section PatchAgain.

Variable yaml_load : string -> option YamlData.
Variable yaml_dump : YamlData -> string.
Variable store : ConfigStore.

Lemma patched_document_is_dict (data : YamlData) (patch : list (string * YamlData)) :
  data = YNone \/ is_dict data = true ->
  is_dict (patched_document data (YDict patch)) = true.
Proof.
  unfold patched_document. intros [-> | Hd].
  - now rewrite merge_loop_eq.
  - destruct data; try discriminate. now rewrite merge_loop_eq.
Qed.

(** X22.  When the loader reads back what the dumper wrote for the
    patched document, sending the same patch a second time, in any
    later second, writes the same text again: the configuration is the
    same after two patches as after one. *)
Theorem same_patch_again_same_text (patch : list (string * YamlData))
    (data : YamlData) (ts : string) (w : World) :
  fst (load_config_yaml yaml_load store w) = Ok data ->
  data = YNone \/ is_dict data = true ->
  keys_distinct (YDict patch) ->
  let document := patched_document data (YDict patch) in
  yaml_load (yaml_dump document) = Some document ->
  yaml_dump document <> EmptyString ->
  exists w1 w2,
    patch_config yaml_load yaml_dump store (YDict patch) w
    = (Ok (config_path store), w1)
    /\ patch_config yaml_load yaml_dump store (YDict patch) (at_time ts w1)
       = (Ok (config_path store), w2)
    /\ files w1 !! config_path store = Some (yaml_dump document)
    /\ files w2 !! config_path store = Some (yaml_dump document).
Proof.
  intros Hload Hroot Hwf document Hback Htext.
  rewrite (patch_config_loaded yaml_load yaml_dump store _ _ _ Hload Hroot).
  fold document.
  destruct (write_with_backup_writes (config_path store) (yaml_dump document) w)
    as (w1 & Hw1 & Hf1).
  rewrite Hw1. simpl. exists w1.
  assert (Hload1 : fst (load_config_yaml yaml_load store (at_time ts w1))
                   = Ok document).
  { rewrite load_config_yaml_cases. simpl. rewrite Hf1.
    rewrite !(str_truthy_true _ Htext). simpl.
    unfold load_result. now rewrite Hback. }
  assert (Hdict : is_dict document = true)
    by now apply patched_document_is_dict.
  rewrite (patch_config_loaded yaml_load yaml_dump store _ _ _ Hload1
             (or_intror Hdict)).
  assert (Hsame : patched_document document (YDict patch) = document).
  { unfold document at 2. unfold patched_document at 2.
    unfold patched_document.
    destruct document eqn:Ed; try discriminate.
    rewrite <- Ed. unfold document, patched_document.
    apply merge_same_patch_fixed. exact Hwf. }
  rewrite Hsame.
  destruct (write_with_backup_writes (config_path store) (yaml_dump document)
              (at_time ts w1)) as (w2 & Hw2 & Hf2).
  rewrite Hw2. simpl. exists w2. auto.
Qed.

End PatchAgain.

Lemma same_patch_again_same_text_witness :
  exists w1 w2,
    patch_config roundtrip_load sample_dump CONFIG_STORE
      (YDict [("interval", YInt 60)]) configured_world
    = (Ok "config/config.yaml", w1)
    /\ patch_config roundtrip_load sample_dump CONFIG_STORE
         (YDict [("interval", YInt 60)]) (at_time "20250101-120500" w1)
       = (Ok "config/config.yaml", w2)
    /\ files w1 !! "config/config.yaml" = Some "{interval: 60;}"
    /\ files w2 !! "config/config.yaml" = Some "{interval: 60;}".
Proof.
  apply (same_patch_again_same_text roundtrip_load sample_dump CONFIG_STORE
           [("interval", YInt 60)] (YDict [("interval", YInt 30)])
           "20250101-120500" configured_world).
  - vm_compute. reflexivity.
  - right. reflexivity.
  - simpl. compute_done.
  - vm_compute. reflexivity.
  - discriminate.
Defined.

Lemma simplified_time_has_no_bracket_witness :
  simplified_time "[08:00 ~ 10:00]" = "08:00~10:00"
  /\ In "~"%char (chars "[08:00 ~ 10:00]").
Proof.
  split; [reflexivity|].
  apply (proj2 (proj2 (simplified_time_has_no_bracket "[08:00 ~ 10:00]"))).
  vm_compute. auto 10.
Defined.

